(** * Latitude bands versus global warming: the grouping pages

    A shallow embedding of the browser scripts of the repository
    (src/global.js and its three sibling variants) and of the properties
    their specification states about them.

    Conventions of the embedding.
    - A JavaScript number is either a finite value, held as a canonical
      rational [Qc], or [NaN]. Rounding and the infinities of IEEE 754 are
      outside the model; [NaN] is kept because unary plus produces it on a
      cell that is not numeric and because [d3.mean] tests for it.
    - A JavaScript [Set] of band ids is a [gset Z]: the scripts only use
      [has], [add], [delete] and [size].
    - The object [{1: Set, 2: Set, 3: Set}] is a record of three sets; it is
      only ever indexed by the loop counter [g = 1..3].
    - The functions of d3 the scripts call ([d3.csv], [d3.rollups],
      [d3.mean]) are modelled after d3-array 3 / d3-fetch 3 in [Module d3].
    - Mutation of the global [userGroups] is explicit state passing. *)

From Stdlib Require Import QArith Qcanon Lqa.
From stdpp Require Import base gmap sets list strings numbers pretty sorting.

#[local] Set Warnings "-clear-no-such-hyp".

Local Open Scope Z_scope.

(** ** JavaScript numbers *)

Module JS.

Inductive number : Type :=
| Num (q : Qc)
| NaN.

#[global] Instance number_eq_dec : EqDecision number.
Proof. solve_decision. Defined.

Definition of_Z (z : Z) : number := Num (Q2Qc (inject_Z z)).
Definition of_nat (n : nat) : Qc := Q2Qc (inject_Z (Z.of_nat n)).

(** [a >= b]: false as soon as one side is [NaN]. *)
Definition ge (a b : number) : bool :=
  match a, b with
  | Num x, Num y => match (x ?= y)%Qc with Lt => false | _ => true end
  | _, _ => false
  end.

(** [a < b]: false as soon as one side is [NaN]. *)
Definition lt (a b : number) : bool :=
  match a, b with
  | Num x, Num y => match (x ?= y)%Qc with Lt => true | _ => false end
  | _, _ => false
  end.

(** [a <= b]: false as soon as one side is [NaN]. *)
Definition le (a b : number) : bool :=
  match a, b with
  | Num x, Num y => match (x ?= y)%Qc with Gt => false | _ => true end
  | _, _ => false
  end.

(** [a + b] on numbers: [NaN] is absorbing. *)
Definition add (a b : number) : number :=
  match a, b with
  | Num x, Num y => Num (x + y)%Qc
  | _, _ => NaN
  end.

Definition is_NaN (a : number) : bool :=
  match a with NaN => true | Num _ => false end.

(** Unary plus on a property read off a CSV row: the property is a string
    or is missing ([undefined]); [+undefined] is [NaN] and [+s] is the
    language's StringToNumber, which is taken as a parameter. *)
Definition to_number (StringToNumber : string → number)
    (cell : option string) : number :=
  match cell with
  | Some s => StringToNumber s
  | None => NaN
  end.

(** A settled promise. *)
Inductive settled (A : Type) : Type :=
| Resolved (value : A)
| Rejected (error : string).
Arguments Resolved {A} value.
Arguments Rejected {A} error.

End JS.

Import JS.

(** ** Data model *)

(** One row of the CSV as d3 hands it over: every property is a string, or
    is absent when the file has no such column. *)
Record csv_row : Type := CsvRow {
  cell_year : option string;
  cell_lat : option string;
  cell_tas : option string
}.

(** [{year, lat, tas}] as built by [loadTASData]. *)
Record sample : Type := Sample {
  year : number;
  lat : number;
  tas : number
}.

(** [{id, min, max}], an element of [latitudeBands]. *)
Record band : Type := Band {
  band_id : Z;
  band_min : number;
  band_max : number
}.

#[global] Instance band_eq_dec : EqDecision band.
Proof. solve_decision. Defined.

(** [{1: Set, 2: Set, 3: Set}], the value of [userGroups]. *)
Record groups : Type := Groups {
  group1 : gset Z;
  group2 : gset Z;
  group3 : gset Z
}.

#[global] Instance groups_eq_dec : EqDecision groups.
Proof. solve_decision. Defined.

(** [groups[g]] for the loop counter [g]; the scripts never index outside
    [1..3]. *)
Definition group_at (gs : groups) (g : nat) : gset Z :=
  match g with
  | 1%nat => group1 gs
  | 2%nat => group2 gs
  | 3%nat => group3 gs
  | _ => ∅
  end.

(** The object after the set held at [g] has been mutated into [s]. *)
Definition group_upd (gs : groups) (g : nat) (s : gset Z) : groups :=
  match g with
  | 1%nat => Groups s (group2 gs) (group3 gs)
  | 2%nat => Groups (group1 gs) s (group3 gs)
  | 3%nat => Groups (group1 gs) (group2 gs) s
  | _ => gs
  end.

(** [{year, tas}], an element of a series; [tas] is what [d3.mean]
    returned, [None] standing for [undefined]. *)
Record point : Type := Point {
  point_year : number;
  point_tas : option number
}.

(** [{name, values}], an element of the grouped series. *)
Record series : Type := Series {
  name : string;
  values : list point
}.

(** The template literal [`Group ${g}`]. *)
Definition group_name (g : nat) : string := "Group " +:+ pretty g.

(** The loop header [for (let g = 1; g <= 3; g++)]. *)
Definition group_ids : list nat := [1; 2; 3]%nat.

(** ** The functions of d3 the scripts use *)

Module d3.

(** The environment of the page: what successive requests will settle
    to, the requests made so far, and the console. *)
Record world : Type := World {
  pending : list (settled (list csv_row));
  requested : list string;
  console : list (string * string)
}.

(** Effectful code threads the world; [x ← m; k] sequences it. *)
Definition IO (A : Type) : Type := world → A * world.

#[global] Instance IO_ret : MRet IO := λ A a w, (a, w).
#[global] Instance IO_bind : MBind IO :=
  λ A B k m w, let '(a, w') := m w in k a w'.

(** [await d3.csv(url)]: one request; it settles to the next pending
    outcome, and is rejected when the environment has none left. *)
Definition csv (url : string) : IO (settled (list csv_row)) :=
  λ w,
    match pending w with
    | r :: rest => (r, World rest (requested w ++ [url]) (console w))
    | [] => (Rejected "no response", World [] (requested w ++ [url]) (console w))
    end.

(** [console.error(label, error)]. *)
Definition console_error (label error : string) : IO () :=
  λ w, ((), World (pending w) (requested w) (console w ++ [(label, error)])).

(** The inner loop of [d3.group]: the value joins the array of its key,
    a new key goes to the end (an InternMap keeps insertion order). *)
Fixpoint push_group {K V} `{EqDecision K}
    (k : K) (v : V) (m : list (K * list V)) : list (K * list V) :=
  match m with
  | [] => [(k, [v])]
  | (k', vs) :: rest =>
      if decide (k = k') then (k', vs ++ [v]) :: rest
      else (k', vs) :: push_group k v rest
  end.

Definition group {K V} `{EqDecision K}
    (values : list V) (key : V → K) : list (K * list V) :=
  fold_left (λ m v, push_group (key v) v m) values [].

(** [d3.rollups(values, reduce, key)]. *)
Definition rollups {K V R} `{EqDecision K}
    (values : list V) (reduce : list V → R) (key : V → K) : list (K * R) :=
  map (λ kv, (fst kv, reduce (snd kv))) (group values key).

(** The loop of [d3.mean(values, valueof)]: a value counts when
    [(value = +value) >= value], that is, when it is not [NaN]. *)
Definition mean_step {V} (valueof : V → number)
    (acc : nat * Qc) (value : V) : nat * Qc :=
  match valueof value with
  | Num v => (S (fst acc), (snd acc + v)%Qc)
  | NaN => acc
  end.

(** [if (count) return sum / count;] and [undefined] otherwise. *)
Definition mean {V} (values : list V) (valueof : V → number) : option number :=
  let acc := fold_left (mean_step valueof) values (0%nat, 0%Qc) in
  match fst acc with
  | O => None
  | S _ => Some (Num (snd acc / of_nat (fst acc))%Qc)
  end.

(** What holds of the groups [m] built from the values [l]: the keys are
    distinct, the array of a key holds the values of that key, in their
    order, and is not empty, and every value has its key among them. *)
Definition grouped {K V} `{EqDecision K}
    (key : V → K) (l : list V) (m : list (K * list V)) : Prop :=
  NoDup (map fst m)
  ∧ (∀ k vs, (k, vs) ∈ m → vs = filter (λ v, key v = k) l ∧ vs ≠ [])
  ∧ (∀ v, v ∈ l → key v ∈ map fst m).

End d3.

(** ** The data loader (the same text in all four scripts) *)

Section Loader.

Variable StringToNumber : string → number.

Definition row_to_sample (d : csv_row) : sample :=
  {| year := to_number StringToNumber (cell_year d);
     lat := to_number StringToNumber (cell_lat d);
     tas := to_number StringToNumber (cell_tas d) |}.

(** [async function loadTASData()]: [None] is the [undefined] the
    function returns when the [catch] block has run. *)
Definition loadTASData : d3.IO (option (list sample)) :=
  r ← d3.csv "data/zonal_anomaly.csv";
  match r with
  | Resolved tasData => mret (Some (map row_to_sample tasData))
  | Rejected error =>
      d3.console_error "Error loading data:" error;;
      mret None
  end.

End Loader.

(** ** What the page shows *)

(** The chart: the lines drawn (one per series, with its legend entry) and
    the text of the annotation callouts. *)
Record chart : Type := Chart {
  lines : list series;
  annotations : list string
}.

(** The state of a page: the global [userGroups], the fill of the six
    strips of the map ([Some g] is the colour of group [g], [None] the
    default fill) and the chart. *)
Record page : Type := Page {
  userGroups : groups;
  latmap : list (option nat);
  linechart : chart
}.

(** ** src/global.js *)

Module Global.

(** [let userGroups = {1: new Set(), 2: new Set(), 3: new Set()}]. *)
Definition initialGroups : groups := Groups ∅ ∅ ∅.

Definition latitudeBands : list band :=
  [ Band 0 (of_Z (-90)) (of_Z (-60));
    Band 1 (of_Z (-60)) (of_Z (-30));
    Band 2 (of_Z (-30)) (of_Z 0);
    Band 3 (of_Z 0) (of_Z 30);
    Band 4 (of_Z 30) (of_Z 60);
    Band 5 (of_Z 60) (of_Z 90) ].

(** The fill callback of the map: the first group that has the band. *)
Fixpoint fill_from (gs : list nat) (userGroups : groups) (d : band) : option nat :=
  match gs with
  | g :: rest =>
      if decide (band_id d ∈ group_at userGroups g) then Some g
      else fill_from rest userGroups d
  | [] => None
  end.

Definition fill (userGroups : groups) (d : band) : option nat :=
  fill_from group_ids userGroups d.

(** The body of [handleBandClick], from loop counter [g] on. *)
Fixpoint click_from (gs : list nat) (bandId : Z) (userGroups : groups) : groups :=
  match gs with
  | g :: rest =>
      if decide (bandId ∈ group_at userGroups g) then
        let removed := group_upd userGroups g (group_at userGroups g ∖ {[bandId]}) in
        if (g <? 3)%nat
        then group_upd removed (g + 1) (group_at removed (g + 1)%nat ∪ {[bandId]})
        else removed
      else click_from rest bandId userGroups
  | [] => group_upd userGroups 1 (group_at userGroups 1%nat ∪ {[bandId]})
  end.

Definition handleBandClick (bandId : Z) (userGroups : groups) : groups :=
  click_from group_ids bandId userGroups.

(** The test [d.lat >= b.min && d.lat < b.max]. *)
Definition in_band (d : sample) (b : band) : bool :=
  ge (lat d) (band_min b) && lt (lat d) (band_max b).

(** The body of [computeGroupAverages], from loop counter [g] on. *)
Fixpoint averages_from (gs : list nat)
    (data : list sample) (groups : groups) (bands : list band) : list series :=
  match gs with
  | g :: rest =>
      let bandIds := group_at groups g in
      if (size bandIds =? 0)%nat then averages_from rest data groups bands
      else
        let groupBandRanges :=
          List.filter (λ b, bool_decide (band_id b ∈ bandIds)) bands in
        let filtered :=
          List.filter (λ d, existsb (in_band d) groupBandRanges) data in
        let nested := d3.rollups filtered (λ v, d3.mean v tas) year in
        {| name := group_name g;
           values := map (λ yt, {| point_year := fst yt; point_tas := snd yt |}) nested |}
        :: averages_from rest data groups bands
  | [] => []
  end.

Definition computeGroupAverages
    (data : list sample) (groups : groups) (bands : list band) : list series :=
  averages_from group_ids data groups bands.

(** The value of [filtered] in the iteration for group [g]. *)
Definition filtered_of
    (data : list sample) (groups : groups) (bands : list band) (g : nat) : list sample :=
  List.filter
    (λ d, existsb (in_band d)
            (List.filter (λ b, bool_decide (band_id b ∈ group_at groups g)) bands))
    data.

(** The per-year buckets [d3.rollups] reduces in the iteration for [g]. *)
Definition buckets_of
    (data : list sample) (groups : groups) (bands : list band) (g : nat)
    : list (number * list sample) :=
  d3.group (filtered_of data groups bands g) year.

(** The entries pushed for group [g]: one per bucket, with what
    [d3.mean] returns on the bucket. *)
Definition entries_of
    (data : list sample) (groups : groups) (bands : list band) (g : nat) : list point :=
  map (λ kv, {| point_year := fst kv; point_tas := d3.mean (snd kv) tas |})
      (buckets_of data groups bands g).

Definition renderTASChart (groupedData : list series) : chart :=
  {| lines := groupedData; annotations := [] |}.

(** [computeGroupAverages(tasData, ...)] on the global [tasData], which
    is the [undefined] of a failed load ([None]) or the rows: on
    [undefined], [data.filter] throws a TypeError ([None]) in the iteration
    of the first non-empty group, and [data] is not read when every group
    is empty. *)
Definition averages_of_loaded
    (tasData : option (list sample)) (groups : groups) (bands : list band)
    : option (list series) :=
  match tasData with
  | Some data => Some (computeGroupAverages data groups bands)
  | None =>
      if forallb (λ g, (size (group_at groups g) =? 0)%nat) group_ids
      then Some []
      else None
  end.

(** When the TypeError is thrown, [renderTASChart] is not reached and the
    chart stays as it was. *)
Definition updateChartFromGroups (tasData : option (list sample)) (p : page) : page :=
  match averages_of_loaded tasData (userGroups p) latitudeBands with
  | Some groupedData =>
      {| userGroups := userGroups p;
         latmap := latmap p;
         linechart := renderTASChart groupedData |}
  | None => p
  end.

Definition renderUpdatedColors (bands : list band) (p : page) : page :=
  {| userGroups := userGroups p;
     latmap := map (fill (userGroups p)) bands;
     linechart := linechart p |}.

(** The click listener of the strip bound to band [d]. *)
Definition on_click (tasData : option (list sample)) (d : band) (p : page) : page :=
  let p1 := {| userGroups := handleBandClick (band_id d) (userGroups p);
               latmap := latmap p;
               linechart := linechart p |} in
  updateChartFromGroups tasData (renderUpdatedColors latitudeBands p1).

(** The page once the top level of the script has run. *)
Definition start (tasData : option (list sample)) : page :=
  updateChartFromGroups tasData
    (renderUpdatedColors latitudeBands
       {| userGroups := initialGroups;
          latmap := [];
          linechart := {| lines := []; annotations := [] |} |}).

(** A session: the strips clicked, in order. *)
Definition session (tasData : option (list sample)) (clicks : list band) (p : page) : page :=
  fold_left (λ p d, on_click tasData d p) clicks p.

End Global.

(** ** src/unnamed/part_001: the variant with the preset, the buttons and
    the annotations *)

Module Annotated.

Definition initialGroups : groups := Groups ∅ ∅ ∅.

Definition latitudeBands : list band :=
  [ Band 0 (of_Z (-90)) (of_Z (-60));
    Band 1 (of_Z (-60)) (of_Z (-30));
    Band 2 (of_Z (-30)) (of_Z 0);
    Band 3 (of_Z 0) (of_Z 30);
    Band 4 (of_Z 30) (of_Z 60);
    Band 5 (of_Z 60) (of_Z 90) ].

(** [userGroups = {1: new Set([0, 5]), 2: new Set([1, 4]), 3: new Set([2, 3])}]:
    the assignment does not read the old value. *)
Definition applyDefaultPreset (_ : groups) : groups :=
  Groups {[0; 5]} {[1; 4]} {[2; 3]}.

(** What [groupsMatchDefaultPattern] can return: [false], [undefined]
    (a [find] without a match) or the entry [[g, set]] found last. *)
Inductive match_result : Type :=
| RFalse
| RUndefined
| REntry (e : string * gset Z).

Definition truthy (r : match_result) : bool :=
  match r with REntry _ => true | _ => false end.

(** [a && b]. *)
Definition js_and (a b : match_result) : match_result :=
  if truthy a then b else a.

Definition object_values (groups : groups) : list (gset Z) :=
  [group1 groups; group2 groups; group3 groups].

Definition object_entries (groups : groups) : list (string * gset Z) :=
  [("1", group1 groups); ("2", group2 groups); ("3", group3 groups)]%string.

(** [entries.find(([g, set]) => ids.every(b => set.has(b)))]. *)
Definition find_group (ids : list Z) (groups : groups) : match_result :=
  match List.find (λ e, forallb (λ b, bool_decide (b ∈ snd e)) ids)
                  (object_entries groups) with
  | Some e => REntry e
  | None => RUndefined
  end.

Definition groupsMatchDefaultPattern (groups : groups) : match_result :=
  let sizes := map size (object_values groups) in
  if negb (existsb (λ s, (s =? 2)%nat) sizes
           && (length (List.filter (λ s, (s =? 2)%nat) sizes) =? 3)%nat)
  then RFalse
  else
    let poles := [0; 5] in
    let mids := [2; 3] in
    let midlats := [1; 4] in
    let polesGroup := find_group poles groups in
    let midsGroup := find_group mids groups in
    let midlatGroup := find_group midlats groups in
    js_and (js_and polesGroup midsGroup) midlatGroup.

Definition fill (userGroups : groups) (d : band) : option nat :=
  List.find (λ g, bool_decide (band_id d ∈ group_at userGroups g)) group_ids.

Fixpoint click_from (gs : list nat) (bandId : Z) (userGroups : groups) : groups :=
  match gs with
  | g :: rest =>
      if decide (bandId ∈ group_at userGroups g) then
        let removed := group_upd userGroups g (group_at userGroups g ∖ {[bandId]}) in
        if (g <? 3)%nat
        then group_upd removed (g + 1) (group_at removed (g + 1)%nat ∪ {[bandId]})
        else removed
      else click_from rest bandId userGroups
  | [] => group_upd userGroups 1 (group_at userGroups 1%nat ∪ {[bandId]})
  end.

Definition handleBandClick (bandId : Z) (userGroups : groups) : groups :=
  click_from group_ids bandId userGroups.

Definition in_band (d : sample) (b : band) : bool :=
  ge (lat d) (band_min b) && lt (lat d) (band_max b).

Fixpoint averages_from (gs : list nat)
    (data : list sample) (groups : groups) (bands : list band) : list series :=
  match gs with
  | g :: rest =>
      let ids := group_at groups g in
      if (size ids =? 0)%nat then averages_from rest data groups bands
      else
        let ranges := List.filter (λ b, bool_decide (band_id b ∈ ids)) bands in
        let filtered := List.filter (λ d, existsb (in_band d) ranges) data in
        let nested := d3.rollups filtered (λ v, d3.mean v tas) year in
        {| name := group_name g;
           values := map (λ yt, {| point_year := fst yt; point_tas := snd yt |}) nested |}
        :: averages_from rest data groups bands
  | [] => []
  end.

Definition computeGroupAverages
    (data : list sample) (groups : groups) (bands : list band) : list series :=
  averages_from group_ids data groups bands.

(** The first line of each of the two callouts. *)
Definition top_annotation : string := "Since the early 2000s, the polar latitudes".
Definition bottom_annotation : string := "Between ~1940 and 1970, global temperatures".

(** [renderTASChart] reads the global [userGroups] for the [if] that
    guards the annotations. *)
Definition renderTASChart (userGroups : groups) (groupedData : list series) : chart :=
  {| lines := groupedData;
     annotations :=
       if truthy (groupsMatchDefaultPattern userGroups)
       then [top_annotation; bottom_annotation]
       else [] |}.

(** [computeGroupAverages(tasData, ...)] on the global [tasData], which
    is the [undefined] of a failed load ([None]) or the rows: on
    [undefined], [data.filter] throws a TypeError ([None]) in the iteration
    of the first non-empty group, and [data] is not read when every group
    is empty. *)
Definition averages_of_loaded
    (tasData : option (list sample)) (groups : groups) (bands : list band)
    : option (list series) :=
  match tasData with
  | Some data => Some (computeGroupAverages data groups bands)
  | None =>
      if forallb (λ g, (size (group_at groups g) =? 0)%nat) group_ids
      then Some []
      else None
  end.

(** When the TypeError is thrown, [renderTASChart] is not reached and the
    chart stays as it was. *)
Definition updateChartFromGroups (tasData : option (list sample)) (p : page) : page :=
  match averages_of_loaded tasData (userGroups p) latitudeBands with
  | Some groupedData =>
      {| userGroups := userGroups p;
         latmap := latmap p;
         linechart := renderTASChart (userGroups p) groupedData |}
  | None => p
  end.

Definition renderLatMapWithWorld (bands : list band) (p : page) : page :=
  {| userGroups := userGroups p;
     latmap := map (fill (userGroups p)) bands;
     linechart := linechart p |}.

Definition set_groups (f : groups → groups) (p : page) : page :=
  {| userGroups := f (userGroups p);
     latmap := latmap p;
     linechart := linechart p |}.

Definition on_click (tasData : option (list sample)) (d : band) (p : page) : page :=
  updateChartFromGroups tasData
    (renderLatMapWithWorld latitudeBands
       (set_groups (handleBandClick (band_id d)) p)).

(** The listener of the button [#clear-all]. *)
Definition on_clear_all (tasData : option (list sample)) (p : page) : page :=
  updateChartFromGroups tasData
    (renderLatMapWithWorld latitudeBands
       (set_groups (λ _, Groups ∅ ∅ ∅) p)).

(** The listener of the button [#restore-defaults]. *)
Definition on_restore_defaults (tasData : option (list sample)) (p : page) : page :=
  updateChartFromGroups tasData
    (renderLatMapWithWorld latitudeBands
       (set_groups applyDefaultPreset p)).

(** The grouping once the script has run its top level: the declaration
    of [userGroups], then the call [applyDefaultPreset()]. *)
Definition loadedGroups : groups := applyDefaultPreset initialGroups.

(** The page once the top level of the script has run. *)
Definition start (tasData : option (list sample)) : page :=
  updateChartFromGroups tasData
    (renderLatMapWithWorld latitudeBands
       {| userGroups := loadedGroups;
          latmap := [];
          linechart := {| lines := []; annotations := [] |} |}).

(** What the user can do on this page. *)
Inductive event : Type :=
| Click (d : band)
| ClearAll
| RestoreDefaults.

Definition handle (tasData : option (list sample)) (e : event) (p : page) : page :=
  match e with
  | Click d => on_click tasData d p
  | ClearAll => on_clear_all tasData p
  | RestoreDefaults => on_restore_defaults tasData p
  end.

Definition session (tasData : option (list sample)) (events : list event) (p : page) : page :=
  fold_left (λ p e, handle tasData e p) events p.

End Annotated.

(** ** src/unnamed/part_002: the variant with the plain strip map *)

Module Strips.

Definition initialGroups : groups := Groups ∅ ∅ ∅.

Definition latitudeBands : list band :=
  [ Band 0 (of_Z (-90)) (of_Z (-60));
    Band 1 (of_Z (-60)) (of_Z (-30));
    Band 2 (of_Z (-30)) (of_Z 0);
    Band 3 (of_Z 0) (of_Z 30);
    Band 4 (of_Z 30) (of_Z 60);
    Band 5 (of_Z 60) (of_Z 90) ].

Fixpoint fill_from (gs : list nat) (userGroups : groups) (d : band) : option nat :=
  match gs with
  | g :: rest =>
      if decide (band_id d ∈ group_at userGroups g) then Some g
      else fill_from rest userGroups d
  | [] => None
  end.

Definition fill (userGroups : groups) (d : band) : option nat :=
  fill_from group_ids userGroups d.

Fixpoint click_from (gs : list nat) (bandId : Z) (userGroups : groups) : groups :=
  match gs with
  | g :: rest =>
      if decide (bandId ∈ group_at userGroups g) then
        let removed := group_upd userGroups g (group_at userGroups g ∖ {[bandId]}) in
        if (g <? 3)%nat
        then group_upd removed (g + 1) (group_at removed (g + 1)%nat ∪ {[bandId]})
        else removed
      else click_from rest bandId userGroups
  | [] => group_upd userGroups 1 (group_at userGroups 1%nat ∪ {[bandId]})
  end.

Definition handleBandClick (bandId : Z) (userGroups : groups) : groups :=
  click_from group_ids bandId userGroups.

Definition in_band (d : sample) (b : band) : bool :=
  ge (lat d) (band_min b) && lt (lat d) (band_max b).

Fixpoint averages_from (gs : list nat)
    (data : list sample) (groups : groups) (bands : list band) : list series :=
  match gs with
  | g :: rest =>
      let bandIds := group_at groups g in
      if (size bandIds =? 0)%nat then averages_from rest data groups bands
      else
        let groupBandRanges :=
          List.filter (λ b, bool_decide (band_id b ∈ bandIds)) bands in
        let filtered :=
          List.filter (λ d, existsb (in_band d) groupBandRanges) data in
        let nested := d3.rollups filtered (λ v, d3.mean v tas) year in
        {| name := group_name g;
           values := map (λ yt, {| point_year := fst yt; point_tas := snd yt |}) nested |}
        :: averages_from rest data groups bands
  | [] => []
  end.

Definition computeGroupAverages
    (data : list sample) (groups : groups) (bands : list band) : list series :=
  averages_from group_ids data groups bands.

Definition renderTASChart (groupedData : list series) : chart :=
  {| lines := groupedData; annotations := [] |}.

(** [computeGroupAverages(tasData, ...)] on the global [tasData], which
    is the [undefined] of a failed load ([None]) or the rows: on
    [undefined], [data.filter] throws a TypeError ([None]) in the iteration
    of the first non-empty group, and [data] is not read when every group
    is empty. *)
Definition averages_of_loaded
    (tasData : option (list sample)) (groups : groups) (bands : list band)
    : option (list series) :=
  match tasData with
  | Some data => Some (computeGroupAverages data groups bands)
  | None =>
      if forallb (λ g, (size (group_at groups g) =? 0)%nat) group_ids
      then Some []
      else None
  end.

(** When the TypeError is thrown, [renderTASChart] is not reached and the
    chart stays as it was. *)
Definition updateChartFromGroups (tasData : option (list sample)) (p : page) : page :=
  match averages_of_loaded tasData (userGroups p) latitudeBands with
  | Some groupedData =>
      {| userGroups := userGroups p;
         latmap := latmap p;
         linechart := renderTASChart groupedData |}
  | None => p
  end.

Definition updateLatMapColors (bands : list band) (p : page) : page :=
  {| userGroups := userGroups p;
     latmap := map (fill (userGroups p)) bands;
     linechart := linechart p |}.

Definition on_click (tasData : option (list sample)) (d : band) (p : page) : page :=
  let p1 := {| userGroups := handleBandClick (band_id d) (userGroups p);
               latmap := latmap p;
               linechart := linechart p |} in
  updateChartFromGroups tasData (updateLatMapColors latitudeBands p1).

Definition start (tasData : option (list sample)) : page :=
  updateChartFromGroups tasData
    (updateLatMapColors latitudeBands
       {| userGroups := initialGroups;
          latmap := [];
          linechart := {| lines := []; annotations := [] |} |}).

Definition session (tasData : option (list sample)) (clicks : list band) (p : page) : page :=
  fold_left (λ p d, on_click tasData d p) clicks p.

End Strips.

(** ** src/unnamed/part_000: the first variant, with three fixed bands *)

Module Fixed.

Record named_band : Type := NamedBand {
  nb_name : string;
  nb_min : number;
  nb_max : number
}.

Definition bands : list named_band :=
  [ NamedBand "Tropics (-30°–30°)" (of_Z (-30)) (of_Z 30);
    NamedBand "Mid-latitudes (30°–60°N)" (of_Z 30) (of_Z 60);
    NamedBand "Arctic (60°–90°N)" (of_Z 60) (of_Z 90) ].

(** The filter [d.lat >= band.min && d.lat <= band.max] of this variant:
    both ends of the range belong to the band. *)
Definition in_band (d : sample) (b : named_band) : bool :=
  ge (lat d) (nb_min b) && le (lat d) (nb_max b).

Definition bandData (data : list sample) : list series :=
  map (λ band,
         let filtered := List.filter (λ d, in_band d band) data in
         let nested := d3.rollups filtered (λ v, d3.mean v tas) year in
         {| name := nb_name band;
            values := map (λ yt, {| point_year := fst yt; point_tas := snd yt |}) nested |})
      bands.

End Fixed.

(** ** Vocabulary of the specification *)

(** What the request of the loader settles to. *)
Definition settles_to (w : d3.world) : settled (list csv_row) :=
  match d3.pending w with
  | r :: _ => r
  | [] => Rejected "no response"
  end.

(** ** Concrete inputs *)

Definition sample_of (y l : Z) (t : number) : sample :=
  {| year := of_Z y; lat := of_Z l; tas := t |}.

(** Three samples of one year in band 3, the last with a [tas] that is
    not a number. *)
Definition data_with_NaN : list sample :=
  [sample_of 2000 10 (of_Z 1); sample_of 2000 10 (of_Z 3); sample_of 2000 10 NaN].

(** One sample, with a [tas] that is not a number. *)
Definition data_only_NaN : list sample := [sample_of 2000 10 NaN].

(** Samples whose [tas] are all numbers. *)
Definition data_numeric : list sample :=
  [sample_of 2000 10 (of_Z 1); sample_of 2000 20 (of_Z 3);
   sample_of 2001 (-75) (of_Z 5)].

(** A sample at the north pole. *)
Definition north_pole : sample := sample_of 1999 90 (of_Z 1).

(** Band 3 in group 1, nothing else. *)
Definition tropics_north_only : groups := Groups {[3]} ∅ ∅.

(** The preset of the annotated page. *)
Definition preset : groups := Groups {[0; 5]} {[1; 4]} {[2; 3]}.

(** A grouped series as a table of rationals, to read off a run: a year
    or a [tas] that is [NaN] shows as [None], and so does, one level up,
    a [tas] that is [undefined]. *)
Definition shown (x : number) : option Q :=
  match x with Num q => Some (this q) | NaN => None end.

Definition table (out : list series) : list (string * list (option Q * option (option Q))) :=
  map (λ s, (name s,
             map (λ p, (shown (point_year p), shown <$> point_tas p)) (values s)))
      out.

(** A world in which the first request fails and a second one would
    succeed, and a reading of cells that knows two strings. *)
Definition flaky_world : d3.world :=
  {| d3.pending :=
       [Rejected "404";
        Resolved [CsvRow (Some "1999") (Some "45") (Some "0.5")]];
     d3.requested := [];
     d3.console := [] |}.

Definition steady_world : d3.world :=
  {| d3.pending :=
       [Resolved [CsvRow (Some "1999") (Some "45") (Some "NA");
                  CsvRow (Some "1999") None (Some "45")]];
     d3.requested := [];
     d3.console := [] |}.

Definition read_cell (s : string) : number :=
  if decide (s = "1999") then of_Z 1999
  else if decide (s = "45") then of_Z 45
  else NaN.

(** The strips of the map, by id. *)
Definition strip0 : band := Band 0 (of_Z (-90)) (of_Z (-60)).
Definition strip3 : band := Band 3 (of_Z 0) (of_Z 30).
Definition strip5 : band := Band 5 (of_Z 60) (of_Z 90).

(** The group a band is assigned to, if any. *)
Definition assignment (ug : groups) (bandId : Z) : option nat :=
  List.find (λ g, bool_decide (bandId ∈ group_at ug g)) group_ids.

(** The cycle of the specification:
    unassigned, group 1, group 2, group 3, unassigned. *)
Definition next_assignment (a : option nat) : option nat :=
  match a with
  | None => Some 1%nat
  | Some 1%nat => Some 2%nat
  | Some 2%nat => Some 3%nat
  | Some _ => None
  end.

(** A band id appears in at most one group. *)
Definition one_group_per_band (ug : groups) : Prop :=
  ∀ (b : Z) (g g' : nat),
    g ∈ group_ids → g' ∈ group_ids → b ∈ group_at ug g → b ∈ group_at ug g' → g = g'.

(** Pairwise disjointness, the set form of [one_group_per_band]. *)
Definition disjoint_groups (ug : groups) : Prop :=
  group1 ug ## group2 ug ∧ group1 ug ## group3 ug ∧ group2 ug ## group3 ug.

(** The number of band ids referenced across the groups. *)
Definition bands_referenced (ug : groups) : nat :=
  (size (group1 ug) + size (group2 ug) + size (group3 ug))%nat.

(** The sample's latitude falls in a band owned by group [g], under the
    membership test of the averager. *)
Definition in_owned_band
    (gs : groups) (bands : list band) (g : nat) (d : sample) : bool :=
  existsb (λ b, bool_decide (band_id b ∈ group_at gs g) && Global.in_band d b) bands.

(** The samples of year [y] that match group [g]. *)
Definition matching_samples
    (data : list sample) (gs : groups) (bands : list band) (g : nat) (y : number)
    : list sample :=
  filter (λ d, in_owned_band gs bands g d = true ∧ year d = y) data.

(** The non-empty groups, in the order group 1, 2, 3. *)
Definition non_empty_groups (gs : groups) : list nat :=
  filter (λ g, group_at gs g ≠ ∅) group_ids.

(** The arithmetic mean of a list of numbers, in the arithmetic of the
    language: the sum over the count, [NaN] as soon as one of the numbers
    is [NaN], and [NaN] for no number at all (0/0). *)
Definition arithmetic_mean (xs : list number) : number :=
  match fold_right add (Num 0%Qc) xs with
  | Num total =>
      match xs with
      | [] => NaN
      | _ :: _ => Num (total / of_nat (length xs))%Qc
      end
  | NaN => NaN
  end.

(** The numbers of a list that are not [NaN]. *)
Definition numeric (xs : list number) : list Qc :=
  omap (λ x, match x with Num q => Some q | NaN => None end) xs.

Definition sum_Qc (qs : list Qc) : Qc := fold_right Qcplus 0%Qc qs.

(** The mean of the numbers of a list that are not [NaN]; [None]
    ([undefined]) when there is none. *)
Definition mean_of_numeric (xs : list number) : option number :=
  let qs := numeric xs in
  match qs with
  | [] => None
  | _ :: _ => Some (Num (sum_Qc qs / of_nat (length qs))%Qc)
  end.

(** The shape of the grouped series the specification describes: one
    series per non-empty group, in order; in the series of a group, one
    entry per distinct year in which a sample matches the group; the [tas]
    of an entry given by [tas_of] on the matching samples of its year. *)
Definition grouped_series
    (tas_of : list sample → option number)
    (data : list sample) (gs : groups) (bands : list band)
    (out : list series) : Prop :=
  ∃ vs : nat → list point,
    out = map (λ g, {| name := group_name g; values := vs g |}) (non_empty_groups gs)
    ∧ ∀ g, g ∈ non_empty_groups gs →
        NoDup (map point_year (vs g))
        ∧ (∀ y, y ∈ map point_year (vs g)
                ↔ ∃ d, d ∈ data ∧ in_owned_band gs bands g d = true ∧ year d = y)
        ∧ (∀ p, p ∈ vs g →
                point_tas p = tas_of (matching_samples data gs bands g (point_year p))).

(** The [tas] of an entry as the specification words it: the arithmetic
    mean of the [tas] values of all the matching samples. *)
Definition mean_of_all (ms : list sample) : option number :=
  Some (arithmetic_mean (map tas ms)).

(** The [tas] of an entry over the samples whose [tas] is a number. *)
Definition mean_of_numbers (ms : list sample) : option number :=
  mean_of_numeric (map tas ms).

(** No entry of the grouped series has an [undefined] [tas]. *)
Definition no_undefined_tas (out : list series) : Prop :=
  ∀ s p, s ∈ out → p ∈ values s → point_tas p ≠ None.

(** Every [tas] of the dataset is a number. *)
Definition numeric_tas (data : list sample) : Prop :=
  Forall (λ d, tas d ≠ NaN) data.

(** The poles/mid-lats/tropics pattern: the three groups have two bands
    each and are the sets {0, 5}, {1, 4} and {2, 3}, in some order of the
    group numbers. *)
Definition default_pattern (gs : groups) : Prop :=
  size (group1 gs) = 2%nat ∧ size (group2 gs) = 2%nat ∧ size (group3 gs) = 2%nat
  ∧ [group1 gs; group2 gs; group3 gs] ≡ₚ [{[0; 5]}; {[1; 4]}; {[2; 3]}].

(** The ids of the strips of the map. *)
Definition band_ids : gset Z := list_to_set (map band_id Global.latitudeBands).

(** Every band id a group refers to is the id of a strip. *)
Definition within_map (ug : groups) : Prop :=
  group1 ug ∪ group2 ug ∪ group3 ug ⊆ band_ids.

(** What a session keeps true of the grouping. *)
Definition session_invariant (ug : groups) : Prop :=
  disjoint_groups ug ∧ within_map ug.

(** A click can only come from a strip of the map, which is bound to an
    element of [latitudeBands]. *)
Definition on_map (d : band) : Prop := d ∈ Global.latitudeBands.

Definition possible (e : Annotated.event) : Prop :=
  match e with
  | Annotated.Click d => on_map d
  | _ => True
  end.

(** The groupings a session can reach, on the page with the buttons (which
    starts from the preset) and on the two pages without them. *)
Inductive reachable : groups → Prop :=
| reachable_annotated tasData events :
    Forall possible events →
    reachable (userGroups (Annotated.session tasData events (Annotated.start tasData)))
| reachable_global tasData clicks :
    Forall on_map clicks →
    reachable (userGroups (Global.session tasData clicks (Global.start tasData)))
| reachable_strips tasData clicks :
    Forall on_map clicks →
    reachable (userGroups (Strips.session tasData clicks (Strips.start tasData))).

(** ** Further vocabulary *)

(** Whether a band id is in group 1, in group 2, in group 3. *)
Definition memberships (ug : groups) (x : Z) : bool * bool * bool :=
  (bool_decide (x ∈ group1 ug), bool_decide (x ∈ group2 ug),
   bool_decide (x ∈ group3 ug)).

(** What the loop of [handleBandClick] does to the memberships of the
    clicked band: out of the first group that has it and into the next. *)
Definition clicked (m : bool * bool * bool) : bool * bool * bool :=
  match m with
  | (true, _, in3) => (false, true, in3)
  | (false, true, _) => (false, false, true)
  | (false, false, true) => (false, false, false)
  | (false, false, false) => (true, false, false)
  end.

(** The clicks that take a band from unassigned to its place in [ug]. *)
Definition clicks_needed (ug : groups) (bandId : Z) : nat :=
  match assignment ug bandId with
  | Some g => g
  | None => 0
  end.

(** A session that builds the grouping [ug] from the empty one: each strip
    of the map is clicked as often as its band needs. *)
Definition clicks_for (ug : groups) : list band :=
  flat_map (λ d, replicate (clicks_needed ug (band_id d)) d) Global.latitudeBands.


(** The chart with nothing drawn. *)
Definition blank_chart : chart := {| lines := []; annotations := [] |}.

(** Every strip of the map is in some group. *)
Definition all_assigned (gs : groups) : Prop :=
  ∀ i, i ∈ band_ids → ∃ g, g ∈ group_ids ∧ i ∈ group_at gs g.

(** The rows are in the order of their years. *)
Definition by_year (data : list sample) : Prop :=
  StronglySorted (λ a b, JS.le (year a) (year b) = true) data.

(** The entries go strictly forward in time. *)
Definition forward_in_time (entries : list point) : Prop :=
  StronglySorted (λ p q, JS.lt (point_year p) (point_year q) = true) entries.

(** The samples of year [y] in a band of the first variant. *)
Definition fixed_matching (data : list sample) (b : Fixed.named_band) (y : number)
    : list sample :=
  filter (λ d, Fixed.in_band d b = true ∧ year d = y) data.

(** The series of a band of the first variant, by its entries. *)
Definition fixed_entries (data : list sample) (b : Fixed.named_band) : list point :=
  map (λ yt, {| point_year := fst yt; point_tas := snd yt |})
    (d3.rollups (List.filter (λ d, Fixed.in_band d b) data) (λ v, d3.mean v tas) year).

(** The chart shows the averages of the grouping, and on the annotated
    page the callouts when the grouping matches the pattern. *)
Definition chart_in_sync (data : list sample) (p : page) : Prop :=
  linechart p
  = {| lines := Global.computeGroupAverages data (userGroups p) Global.latitudeBands;
       annotations := [] |}.

Definition annotated_chart_in_sync (data : list sample) (p : page) : Prop :=
  linechart p
  = {| lines := Global.computeGroupAverages data (userGroups p) Global.latitudeBands;
       annotations :=
         if Annotated.truthy (Annotated.groupsMatchDefaultPattern (userGroups p))
         then [Annotated.top_annotation; Annotated.bottom_annotation]
         else [] |}.

(** The top level of a script: the data is loaded, then the page is
    drawn. *)
Definition boot {A} (StringToNumber : string → number)
    (start : option (list sample) → A) : d3.IO A :=
  tasData ← loadTASData StringToNumber;
  mret (start tasData).

(** ** The scales of d3 the drawing code uses *)

Module d3_scale.

(** The loop of [d3.extent(values, valueof)]: the first value that is a
    number starts [min] and [max]; a later one replaces [min] when
    [min > value] and [max] when [max < value]; [NaN] changes nothing. *)
Definition extent_step {V} (valueof : V → number)
    (acc : option (Qc * Qc)) (value : V) : option (Qc * Qc) :=
  match valueof value with
  | NaN => acc
  | Num v =>
      match acc with
      | None => Some (v, v)
      | Some (min, max) =>
          Some (if JS.lt (Num v) (Num min) then v else min,
                if JS.lt (Num max) (Num v) then v else max)
      end
  end.

(** [d3.extent(values, valueof)]: [None] is [[undefined, undefined]]. *)
Definition extent {V} (values : list V) (valueof : V → number)
    : option (Qc * Qc) :=
  fold_left (extent_step valueof) values None.

(** [.domain(extent)]: each end goes through unary plus. *)
Definition domain_of (e : option (Qc * Qc)) : number * number :=
  match e with
  | Some (min, max) => (Num min, Num max)
  | None => (NaN, NaN)
  end.

(** [d3.scaleLinear().domain([d0, d1]).range([r0, r1])] applied to [x]:
    [undefined] ([None]) for [NaN]; otherwise the interpolation
    [a * (1 - t) + b * t] at the normalised [t], where a domain that
    decreases is turned around together with the range, a domain of one
    point gives [t = 0.5], and a [NaN] in the domain or the range gives
    [NaN]. *)
Definition linear (domain range : number * number) (x : number) : option number :=
  match x with
  | NaN => None
  | Num xv =>
      Some
        match domain, range with
        | (Num d0, Num d1), (Num r0, Num r1) =>
            if JS.lt (Num d1) (Num d0)
            then let t := ((xv - d1) / (d0 - d1))%Qc in
                 Num (r1 * (1 - t) + r0 * t)%Qc
            else if decide ((d1 - d0)%Qc = 0%Qc)
            then Num (r0 * (1 - 1 / of_nat 2) + r1 * (1 / of_nat 2))%Qc
            else let t := ((xv - d0) / (d1 - d0))%Qc in
                 Num (r0 * (1 - t) + r1 * t)%Qc
        | _, _ => NaN
        end
  end.


End d3_scale.

(** The horizontal scale of [renderTASChart] for a chart [width] wide
    (700, 800 or 600, by the file):
    [x = d3.scaleLinear().domain(d3.extent(allValues, d => d.year))
    .range([0, width])], over
    [allValues = groupedData.flatMap(d => d.values)]. *)
Definition allValues (groupedData : list series) : list point :=
  flat_map values groupedData.

Definition chart_x (width : Z) (groupedData : list series) (v : number)
    : option number :=
  d3_scale.linear
    (d3_scale.domain_of (d3_scale.extent (allValues groupedData) point_year))
    (of_Z 0, of_Z width) v.




(** What [min] and [max] of [d3.extent] are after the loop has seen
    [values]: both [undefined] when no value is a number, otherwise the
    least and the greatest of the values that are numbers. *)
Definition extent_of {V} (valueof : V → number)
    (values : list V) (acc : option (Qc * Qc)) : Prop :=
  match acc with
  | None => numeric (map valueof values) = []
  | Some (min, max) =>
      min ∈ numeric (map valueof values)
      ∧ max ∈ numeric (map valueof values)
      ∧ ∀ q, q ∈ numeric (map valueof values) → (min ≤ q ∧ q ≤ max)%Qc
  end.

(** A sample whose latitude is not a number. *)
Definition no_latitude : sample :=
  {| year := of_Z 2000; lat := NaN; tas := of_Z 9 |}.

(** * Properties *)

(** ** Runs on concrete inputs *)

Example averages_of_numeric_data :
  table (Global.computeGroupAverages data_numeric preset Global.latitudeBands)
  = [("Group 1", [(Some 2001%Q, Some (Some 5%Q))]);
     ("Group 2", []);
     ("Group 3", [(Some 2000%Q, Some (Some 2%Q))])]%string.
Proof. by vm_compute. Qed.

Example averages_skip_NaN :
  table (Global.computeGroupAverages data_with_NaN tropics_north_only
           Global.latitudeBands)
  = [("Group 1", [(Some 2000%Q, Some (Some 2%Q))])]%string.
Proof. by vm_compute. Qed.

Example averages_of_only_NaN :
  table (Global.computeGroupAverages data_only_NaN tropics_north_only
           Global.latitudeBands)
  = [("Group 1", [(Some 2000%Q, None)])]%string.
Proof. by vm_compute. Qed.

Example averages_without_the_pole :
  table (Global.computeGroupAverages
           [north_pole; sample_of 1999 (-90) (of_Z 7); sample_of 1999 60 (of_Z 2)]
           preset Global.latitudeBands)
  = [("Group 1", [(Some 1999%Q, Some (Some (9 # 2)%Q))]);
     ("Group 2", []);
     ("Group 3", [])]%string.
Proof. by vm_compute. Qed.

Example three_clicks_on_band_3 :
  Annotated.object_values (Nat.iter 3 (Global.handleBandClick 3) preset)
  = [{[0; 5]}; {[1; 3; 4]}; {[2]}].
Proof. apply (bool_decide_unpack _). by vm_compute. Qed.

Example pattern_in_another_order :
  Annotated.truthy
    (Annotated.groupsMatchDefaultPattern (Groups {[2; 3]} {[0; 5]} {[1; 4]}))
  = true.
Proof. by vm_compute. Qed.

Example pattern_missed :
  Annotated.groupsMatchDefaultPattern (Groups {[2; 3]} {[0; 5]} {[1]})
  = Annotated.RFalse
  ∧ Annotated.groupsMatchDefaultPattern (Groups {[2; 3]} {[0; 5]} {[1; 7]})
    = Annotated.RUndefined.
Proof. split; by vm_compute. Qed.

Example load_fails_once :
  fst (loadTASData read_cell flaky_world) = None
  ∧ d3.console (snd (loadTASData read_cell flaky_world))
    = [("Error loading data:", "404")]%string
  ∧ length (d3.pending (snd (loadTASData read_cell flaky_world))) = 1%nat.
Proof. repeat split. Qed.

Example load_succeeds :
  fst (loadTASData read_cell steady_world)
  = Some [ {| year := of_Z 1999; lat := of_Z 45; tas := NaN |};
           {| year := of_Z 1999; lat := NaN; tas := of_Z 45 |} ].
Proof. by vm_compute. Qed.

(** ** The click cycle *)

Section ClickCycle.

Implicit Types (ug : groups) (b : Z).

(** The loop of [handleBandClick], case by case. *)
Lemma click_group1 g1 g2 g3 b :
  b ∈ g1 →
  Global.handleBandClick b (Groups g1 g2 g3) = Groups (g1 ∖ {[b]}) (g2 ∪ {[b]}) g3.
Proof.
  intros Hb. unfold Global.handleBandClick. simpl.
  by rewrite decide_True.
Qed.

Lemma click_group2 g1 g2 g3 b :
  b ∉ g1 → b ∈ g2 →
  Global.handleBandClick b (Groups g1 g2 g3) = Groups g1 (g2 ∖ {[b]}) (g3 ∪ {[b]}).
Proof.
  intros Hb1 Hb2. unfold Global.handleBandClick. simpl.
  rewrite decide_False by done. by rewrite decide_True.
Qed.

Lemma click_group3 g1 g2 g3 b :
  b ∉ g1 → b ∉ g2 → b ∈ g3 →
  Global.handleBandClick b (Groups g1 g2 g3) = Groups g1 g2 (g3 ∖ {[b]}).
Proof.
  intros Hb1 Hb2 Hb3. unfold Global.handleBandClick. simpl.
  rewrite !decide_False by done. by rewrite decide_True.
Qed.

Lemma click_unassigned g1 g2 g3 b :
  b ∉ g1 → b ∉ g2 → b ∉ g3 →
  Global.handleBandClick b (Groups g1 g2 g3) = Groups (g1 ∪ {[b]}) g2 g3.
Proof.
  intros Hb1 Hb2 Hb3. unfold Global.handleBandClick. simpl.
  by rewrite !decide_False by done.
Qed.

(** The four cases cover every grouping. *)
Lemma click_cases ug b :
  let ug' := Global.handleBandClick b ug in
  (b ∈ group1 ug ∧
     ug' = Groups (group1 ug ∖ {[b]}) (group2 ug ∪ {[b]}) (group3 ug)) ∨
  ((b ∉ group1 ug) ∧ b ∈ group2 ug ∧
     ug' = Groups (group1 ug) (group2 ug ∖ {[b]}) (group3 ug ∪ {[b]})) ∨
  ((b ∉ group1 ug) ∧ (b ∉ group2 ug) ∧ b ∈ group3 ug ∧
     ug' = Groups (group1 ug) (group2 ug) (group3 ug ∖ {[b]})) ∨
  ((b ∉ group1 ug) ∧ (b ∉ group2 ug) ∧ (b ∉ group3 ug) ∧
     ug' = Groups (group1 ug ∪ {[b]}) (group2 ug) (group3 ug)).
Proof.
  destruct ug as [g1 g2 g3]; simpl.
  destruct (decide (b ∈ g1)) as [H1|H1].
  { left. split; [done|]. by apply click_group1. }
  destruct (decide (b ∈ g2)) as [H2|H2].
  { right; left. repeat split; try done. by apply click_group2. }
  destruct (decide (b ∈ g3)) as [H3|H3].
  { right; right; left. repeat split; try done. by apply click_group3. }
  right; right; right. repeat split; try done. by apply click_unassigned.
Qed.

Lemma one_group_per_band_disjoint ug :
  one_group_per_band ug ↔ disjoint_groups ug.
Proof.
  unfold one_group_per_band, disjoint_groups, group_ids. split.
  - intros H. repeat split; intros b Hb Hb'.
    + specialize (H b 1%nat 2%nat). simpl in H.
      assert (1 = 2)%nat; [apply H; set_solver | lia].
    + specialize (H b 1%nat 3%nat). simpl in H.
      assert (1 = 3)%nat; [apply H; set_solver | lia].
    + specialize (H b 2%nat 3%nat). simpl in H.
      assert (2 = 3)%nat; [apply H; set_solver | lia].
  - intros (H12 & H13 & H23) b g g' Hg Hg' Hb Hb'.
    repeat (apply elem_of_cons in Hg as [->|Hg]);
      [| | |by apply elem_of_nil in Hg];
      repeat (apply elem_of_cons in Hg' as [->|Hg']);
      try (by apply elem_of_nil in Hg'); simpl in *;
      try done; set_solver.
Qed.

Lemma click_disjoint ug b :
  disjoint_groups ug → disjoint_groups (Global.handleBandClick b ug).
Proof.
  unfold disjoint_groups. intros (H12 & H13 & H23).
  destruct (click_cases ug b) as
    [(?&->)|[(?&?&->)|[(?&?&?&->)|(?&?&?&->)]]]; simpl; set_solver.
Qed.

(** One click moves the band one step along the cycle. *)
Lemma click_next ug b :
  disjoint_groups ug →
  assignment (Global.handleBandClick b ug) b = next_assignment (assignment ug b).
Proof.
  unfold disjoint_groups, assignment, group_ids. intros (H12 & H13 & H23).
  destruct (click_cases ug b) as
    [(?&->)|[(?&?&->)|[(?&?&?&->)|(?&?&?&->)]]]; simpl;
    repeat (rewrite bool_decide_eq_true_2 by set_solver; simpl);
    repeat (rewrite bool_decide_eq_false_2 by set_solver; simpl);
    repeat (rewrite bool_decide_eq_true_2 by set_solver; simpl);
    repeat (rewrite bool_decide_eq_false_2 by set_solver; simpl);
    reflexivity.
Qed.

(** Four clicks on one band restore the whole grouping. *)
Lemma click_four ug b :
  disjoint_groups ug →
  Nat.iter 4 (Global.handleBandClick b) ug = ug.
Proof.
  destruct ug as [g1 g2 g3]. unfold disjoint_groups. simpl.
  intros (H12 & H13 & H23).
  destruct (decide (b ∈ g1)) as [H1|H1];
    [|destruct (decide (b ∈ g2)) as [H2|H2];
      [|destruct (decide (b ∈ g3)) as [H3|H3]]].
  - rewrite click_group1 by done.
    rewrite click_group2 by set_solver.
    rewrite click_group3 by set_solver.
    rewrite click_unassigned by set_solver.
    f_equal; apply set_eq; intros x; destruct (decide (x = b)); set_solver.
  - rewrite click_group2 by done.
    rewrite click_group3 by set_solver.
    rewrite click_unassigned by set_solver.
    rewrite click_group1 by set_solver.
    f_equal; apply set_eq; intros x; destruct (decide (x = b)); set_solver.
  - rewrite click_group3 by done.
    rewrite click_unassigned by set_solver.
    rewrite click_group1 by set_solver.
    rewrite click_group2 by set_solver.
    f_equal; apply set_eq; intros x; destruct (decide (x = b)); set_solver.
  - rewrite click_unassigned by done.
    rewrite click_group1 by set_solver.
    rewrite click_group2 by set_solver.
    rewrite click_group3 by set_solver.
    f_equal; apply set_eq; intros x; destruct (decide (x = b)); set_solver.
Qed.

(** A click on [b] changes the membership of no other band. *)
Lemma click_frame ug b b' (g : nat) :
  b ≠ b' → b' ∈ group_at (Global.handleBandClick b ug) g ↔ b' ∈ group_at ug g.
Proof.
  intros Hne.
  destruct (click_cases ug b) as
    [(?&->)|[(?&?&->)|[(?&?&?&->)|(?&?&?&->)]]];
    destruct ug as [g1 g2 g3];
    destruct g as [|[|[|[|g]]]]; simpl; set_solver.
Qed.

End ClickCycle.

(** ** The three copies of the cycle and of the averager *)

Lemma annotated_click_same bandId ug :
  Annotated.handleBandClick bandId ug = Global.handleBandClick bandId ug.
Proof. reflexivity. Qed.

Lemma strips_click_same bandId ug :
  Strips.handleBandClick bandId ug = Global.handleBandClick bandId ug.
Proof. reflexivity. Qed.

Lemma annotated_averages_same data gs bands :
  Annotated.computeGroupAverages data gs bands
  = Global.computeGroupAverages data gs bands.
Proof. reflexivity. Qed.

Lemma strips_averages_same data gs bands :
  Strips.computeGroupAverages data gs bands
  = Global.computeGroupAverages data gs bands.
Proof. reflexivity. Qed.

(** ** What each listener does to [userGroups] *)

(** The update of the chart returns the page with its grouping, whether
    the averages were computed or the TypeError was thrown. *)
Lemma global_update_groups tasData p :
  userGroups (Global.updateChartFromGroups tasData p) = userGroups p.
Proof.
  unfold Global.updateChartFromGroups.
  by destruct (Global.averages_of_loaded _ _ _).
Qed.

Lemma annotated_update_groups tasData p :
  userGroups (Annotated.updateChartFromGroups tasData p) = userGroups p.
Proof.
  unfold Annotated.updateChartFromGroups.
  by destruct (Annotated.averages_of_loaded _ _ _).
Qed.

Lemma strips_update_groups tasData p :
  userGroups (Strips.updateChartFromGroups tasData p) = userGroups p.
Proof.
  unfold Strips.updateChartFromGroups.
  by destruct (Strips.averages_of_loaded _ _ _).
Qed.

Lemma global_on_click_groups tasData d p :
  userGroups (Global.on_click tasData d p)
  = Global.handleBandClick (band_id d) (userGroups p).
Proof. unfold Global.on_click. by rewrite global_update_groups. Qed.

Lemma strips_on_click_groups tasData d p :
  userGroups (Strips.on_click tasData d p)
  = Global.handleBandClick (band_id d) (userGroups p).
Proof. unfold Strips.on_click. by rewrite strips_update_groups. Qed.

Lemma annotated_on_click_groups tasData d p :
  userGroups (Annotated.on_click tasData d p)
  = Global.handleBandClick (band_id d) (userGroups p).
Proof. unfold Annotated.on_click. by rewrite annotated_update_groups. Qed.

Lemma annotated_clear_groups tasData p :
  userGroups (Annotated.on_clear_all tasData p) = Groups ∅ ∅ ∅.
Proof. unfold Annotated.on_clear_all. by rewrite annotated_update_groups. Qed.

Lemma annotated_restore_groups tasData p :
  userGroups (Annotated.on_restore_defaults tasData p)
  = Groups {[0; 5]} {[1; 4]} {[2; 3]}.
Proof.
  unfold Annotated.on_restore_defaults. by rewrite annotated_update_groups.
Qed.

Lemma annotated_handle_groups tasData e p :
  userGroups (Annotated.handle tasData e p)
  = match e with
    | Annotated.Click d => Global.handleBandClick (band_id d) (userGroups p)
    | Annotated.ClearAll => Groups ∅ ∅ ∅
    | Annotated.RestoreDefaults => Groups {[0; 5]} {[1; 4]} {[2; 3]}
    end.
Proof.
  destruct e; simpl.
  - apply annotated_on_click_groups.
  - apply annotated_clear_groups.
  - apply annotated_restore_groups.
Qed.

Lemma global_start_groups tasData :
  userGroups (Global.start tasData) = Groups ∅ ∅ ∅.
Proof. unfold Global.start. by rewrite global_update_groups. Qed.

Lemma strips_start_groups tasData :
  userGroups (Strips.start tasData) = Groups ∅ ∅ ∅.
Proof. unfold Strips.start. by rewrite strips_update_groups. Qed.

Lemma annotated_start_groups tasData :
  userGroups (Annotated.start tasData) = Groups {[0; 5]} {[1; 4]} {[2; 3]}.
Proof. unfold Annotated.start. by rewrite annotated_update_groups. Qed.

(** ** The invariant of a session *)

Section Invariant.

Implicit Types (ug : groups) (b : Z) (p : page).

Lemma on_map_band_ids d : on_map d → band_id d ∈ band_ids.
Proof.
  unfold on_map, band_ids. intros Hd.
  apply elem_of_list_to_set, list_elem_of_fmap. eauto.
Qed.

Lemma click_within_map ug b :
  b ∈ band_ids → within_map ug → within_map (Global.handleBandClick b ug).
Proof.
  unfold within_map. generalize band_ids. intros ids Hb Hug.
  destruct (click_cases ug b) as
    [(?&->)|[(?&?&->)|[(?&?&?&->)|(?&?&?&->)]]]; simpl; set_solver.
Qed.

Lemma inv_empty : session_invariant (Groups ∅ ∅ ∅).
Proof.
  unfold session_invariant, disjoint_groups, within_map. simpl. set_solver.
Qed.

Lemma inv_preset : session_invariant (Groups {[0; 5]} {[1; 4]} {[2; 3]}).
Proof.
  unfold session_invariant, disjoint_groups, within_map. simpl.
  split; [set_solver|]. apply (bool_decide_unpack _). by vm_compute.
Qed.

Lemma inv_click ug d :
  on_map d → session_invariant ug →
  session_invariant (Global.handleBandClick (band_id d) ug).
Proof.
  intros Hd [Hdis Hin]. split.
  - by apply click_disjoint.
  - apply click_within_map; [by apply on_map_band_ids | done].
Qed.

Lemma inv_annotated_session tasData events p :
  Forall possible events → session_invariant (userGroups p) →
  session_invariant (userGroups (Annotated.session tasData events p)).
Proof.
  unfold Annotated.session. intros Hev. revert p.
  induction Hev as [|e events He _ IH]; intros p Hp; [done|].
  simpl. apply IH. rewrite annotated_handle_groups.
  destruct e; [by apply inv_click | apply inv_empty | apply inv_preset].
Qed.

Lemma inv_global_session tasData clicks p :
  Forall on_map clicks → session_invariant (userGroups p) →
  session_invariant (userGroups (Global.session tasData clicks p)).
Proof.
  unfold Global.session. intros Hev. revert p.
  induction Hev as [|d clicks Hd _ IH]; intros p Hp; [done|].
  simpl. apply IH. rewrite global_on_click_groups. by apply inv_click.
Qed.

Lemma inv_strips_session tasData clicks p :
  Forall on_map clicks → session_invariant (userGroups p) →
  session_invariant (userGroups (Strips.session tasData clicks p)).
Proof.
  unfold Strips.session. intros Hev. revert p.
  induction Hev as [|d clicks Hd _ IH]; intros p Hp; [done|].
  simpl. apply IH. rewrite strips_on_click_groups. by apply inv_click.
Qed.

Lemma reachable_inv ug :
  reachable ug → disjoint_groups ug ∧ within_map ug.
Proof.
  intros [tasData events Hev|tasData clicks Hev|tasData clicks Hev].
  - apply inv_annotated_session; [done|].
    rewrite annotated_start_groups. apply inv_preset.
  - apply inv_global_session; [done|].
    rewrite global_start_groups. apply inv_empty.
  - apply inv_strips_session; [done|].
    rewrite strips_start_groups. apply inv_empty.
Qed.

(** Disjoint groups within the map refer to at most six band ids. *)
Lemma bands_referenced_bound ug :
  disjoint_groups ug → within_map ug → (bands_referenced ug ≤ 6)%nat.
Proof.
  unfold disjoint_groups, within_map, bands_referenced.
  intros (H12 & H13 & H23) Hin.
  apply subseteq_size in Hin.
  rewrite !size_union in Hin by set_solver.
  replace (size band_ids) with 6%nat in Hin by (by vm_compute).
  lia.
Qed.

End Invariant.

(** ** Claims on the grouping state *)

(** C2. From every reachable grouping, one call of [handleBandClick] moves
    the clicked band one step along the cycle unassigned, group 1, group 2,
    group 3, unassigned; four calls on the same band give back the grouping
    they started from, so the band is back at its starting assignment, and
    an unassigned band is unassigned again. *)
Theorem C2_click_cycle_of_four (ug : groups) (bandId : Z) :
  reachable ug →
  assignment (Global.handleBandClick bandId ug) bandId
    = next_assignment (assignment ug bandId)
  ∧ Nat.iter 4 (Global.handleBandClick bandId) ug = ug
  ∧ assignment (Nat.iter 4 (Global.handleBandClick bandId) ug) bandId
    = assignment ug bandId
  ∧ (assignment ug bandId = None →
     assignment (Nat.iter 4 (Global.handleBandClick bandId) ug) bandId = None).
Proof.
  intros Hreach. apply reachable_inv in Hreach as [Hdis _].
  pose proof (click_four ug bandId Hdis) as Hfour.
  split; [by apply click_next|].
  split; [done|].
  rewrite Hfour. done.
Qed.

Lemma C2_click_cycle_of_four_witness :
  let ug := userGroups (Global.session (Some data_numeric)
                          [strip0; strip3; strip0]
                          (Global.start (Some data_numeric))) in
  reachable ug
  ∧ assignment (Global.handleBandClick 3 ug) 3
    = next_assignment (assignment ug 3)
  ∧ Nat.iter 4 (Global.handleBandClick 3) ug = ug.
Proof.
  intros ug.
  assert (Hreach : reachable ug).
  { apply reachable_global.
    repeat constructor; apply (bool_decide_unpack _); by vm_compute. }
  split; [exact Hreach|].
  destruct (C2_click_cycle_of_four ug 3 Hreach) as (Hnext & Hfour & _).
  split; [exact Hnext | exact Hfour].
Defined.

(** C3. After any sequence of clicks on strips of the map, clear-all
    resets and preset applications, from the page as loaded, every band id
    appears in at most one of the three groups and the groups refer to at
    most six band ids in total. *)
Theorem C3_one_group_per_band_at_most_six (ug : groups) :
  reachable ug →
  one_group_per_band ug ∧ (bands_referenced ug ≤ 6)%nat.
Proof.
  intros Hreach. apply reachable_inv in Hreach as [Hdis Hin]. split.
  - by apply one_group_per_band_disjoint.
  - by apply bands_referenced_bound.
Qed.

Lemma C3_one_group_per_band_at_most_six_witness :
  let ug := userGroups
              (Annotated.session None
                 [Annotated.Click strip0; Annotated.ClearAll;
                  Annotated.Click strip3; Annotated.Click strip3;
                  Annotated.RestoreDefaults; Annotated.Click strip5]
                 (Annotated.start None)) in
  reachable ug ∧ one_group_per_band ug ∧ (bands_referenced ug ≤ 6)%nat.
Proof.
  intros ug.
  assert (Hreach : reachable ug).
  { apply reachable_annotated.
    repeat constructor; apply (bool_decide_unpack _); by vm_compute. }
  split; [exact Hreach|].
  exact (C3_one_group_per_band_at_most_six ug Hreach).
Defined.

(** C7. A click on band [b] changes the membership of no other band [b']
    in any of the three groups; and on every page the grouping after a
    listener has run is the one [handleBandClick], the clear-all reset or
    the preset produces, the chart and map updates leaving it as it is. *)
Theorem C7_click_touches_one_band :
  (∀ (ug : groups) (b b' : Z) (g : nat),
     b ≠ b' →
     b' ∈ group_at (Global.handleBandClick b ug) g ↔ b' ∈ group_at ug g)
  ∧ (∀ tasData bands p,
       userGroups (Global.updateChartFromGroups tasData p) = userGroups p
       ∧ userGroups (Global.renderUpdatedColors bands p) = userGroups p
       ∧ userGroups (Annotated.updateChartFromGroups tasData p) = userGroups p
       ∧ userGroups (Annotated.renderLatMapWithWorld bands p) = userGroups p
       ∧ userGroups (Strips.updateChartFromGroups tasData p) = userGroups p
       ∧ userGroups (Strips.updateLatMapColors bands p) = userGroups p)
  ∧ (∀ tasData d p,
       userGroups (Global.on_click tasData d p)
         = Global.handleBandClick (band_id d) (userGroups p)
       ∧ userGroups (Strips.on_click tasData d p)
         = Strips.handleBandClick (band_id d) (userGroups p)
       ∧ userGroups (Annotated.on_click tasData d p)
         = Annotated.handleBandClick (band_id d) (userGroups p)
       ∧ userGroups (Annotated.on_clear_all tasData p) = Groups ∅ ∅ ∅
       ∧ userGroups (Annotated.on_restore_defaults tasData p)
         = Annotated.applyDefaultPreset (userGroups p)).
Proof.
  split; [|split].
  - intros ug b b' g Hne. by apply click_frame.
  - intros tasData bands p.
    rewrite global_update_groups, annotated_update_groups, strips_update_groups.
    by repeat split.
  - intros tasData d p.
    rewrite global_on_click_groups, strips_on_click_groups.
    rewrite annotated_on_click_groups, annotated_clear_groups.
    rewrite annotated_restore_groups.
    by repeat split.
Qed.

Lemma C7_click_touches_one_band_witness :
  (3 : Z) ≠ 5
  ∧ (5 ∈ group_at (Global.handleBandClick 3 (Groups {[0; 5]} {[1; 4]} {[2; 3]})) 1
     ↔ 5 ∈ group_at (Groups {[0; 5]} {[1; 4]} {[2; 3]}) 1).
Proof.
  assert (Hne : (3 : Z) ≠ 5) by lia.
  split; [exact Hne|].
  exact (proj1 C7_click_touches_one_band
           (Groups {[0; 5]} {[1; 4]} {[2; 3]}) 3 5 1%nat Hne).
Defined.

(** C8. On the page with the buttons, whatever the grouping was, the
    clear-all button leaves the three groups empty, so that no band is
    assigned to a group, and the restore-defaults button leaves group 1
    equal to {0, 5}, group 2 to {1, 4} and group 3 to {2, 3}. *)
Theorem C8_buttons_reset_the_grouping (tasData : option (list sample)) (p : page) :
  userGroups (Annotated.on_clear_all tasData p) = Groups ∅ ∅ ∅
  ∧ (∀ (b : Z) (g : nat),
       b ∉ group_at (userGroups (Annotated.on_clear_all tasData p)) g)
  ∧ userGroups (Annotated.on_restore_defaults tasData p)
    = Groups {[0; 5]} {[1; 4]} {[2; 3]}
  ∧ userGroups (Annotated.on_restore_defaults tasData p)
    = Annotated.loadedGroups.
Proof.
  rewrite annotated_clear_groups, annotated_restore_groups.
  split; [done|]. split; [|done].
  intros b g. destruct g as [|[|[|[|g]]]]; simpl; set_solver.
Qed.

(** C9. The three copies of [handleBandClick] give the same successor
    grouping for every grouping and band id, and the three copies of
    [computeGroupAverages] give the same grouped series for every dataset,
    grouping and band list. *)
Theorem C9_three_copies_agree :
  (∀ (bandId : Z) (ug : groups),
     Annotated.handleBandClick bandId ug = Global.handleBandClick bandId ug
     ∧ Strips.handleBandClick bandId ug = Global.handleBandClick bandId ug)
  ∧ (∀ (data : list sample) (gs : groups) (bands : list band),
       Annotated.computeGroupAverages data gs bands
         = Global.computeGroupAverages data gs bands
       ∧ Strips.computeGroupAverages data gs bands
         = Global.computeGroupAverages data gs bands).
Proof.
  split.
  - intros bandId ug. split;
      [apply annotated_click_same | apply strips_click_same].
  - intros data gs bands. split;
      [apply annotated_averages_same | apply strips_averages_same].
Qed.

(** ** The preset pattern and the annotations *)

Section DefaultPattern.

Implicit Types (gs : groups) (s : gset Z).

(** A set of two elements is determined by two of its elements. *)
Lemma pair_of_size_two s (a b : Z) :
  size s = 2%nat → a ≠ b → a ∈ s → b ∈ s → s = {[a; b]}.
Proof.
  intros Hsize Hne Ha Hb. symmetry.
  apply set_subseteq_size_eq; [set_solver|].
  rewrite Hsize, size_union by set_solver.
  by rewrite !size_singleton.
Qed.

Lemma find_group_truthy (ids : list Z) gs :
  Annotated.truthy (Annotated.find_group ids gs) = true
  ↔ ∃ s, s ∈ Annotated.object_values gs ∧ ∀ b, b ∈ ids → b ∈ s.
Proof.
  unfold Annotated.find_group.
  destruct (List.find _ _) as [e|] eqn:Hfind; cbn [Annotated.truthy].
  - apply find_some in Hfind as [Hin Hall].
    split; [intros _|done].
    exists (snd e). split.
    + apply list_elem_of_In in Hin. unfold Annotated.object_entries in Hin.
      unfold Annotated.object_values. set_solver.
    + intros b Hb. rewrite forallb_forall in Hall.
      apply list_elem_of_In, Hall in Hb. by apply bool_decide_eq_true in Hb.
  - split; [done|]. intros (s & Hs & Hall). exfalso.
    assert (∃ k, (k, s) ∈ Annotated.object_entries gs) as [k Hk].
    { unfold Annotated.object_values in Hs. unfold Annotated.object_entries.
      apply elem_of_cons in Hs as [->|Hs]; [exists "1"%string; set_solver|].
      apply elem_of_cons in Hs as [->|Hs]; [exists "2"%string; set_solver|].
      apply elem_of_cons in Hs as [->|Hs]; [exists "3"%string; set_solver|].
      by apply elem_of_nil in Hs. }
    apply list_elem_of_In in Hk.
    apply (find_none _ _ Hfind) in Hk. simpl in Hk.
    apply not_true_iff_false in Hk. apply Hk.
    apply forallb_forall. intros b Hb.
    apply bool_decide_eq_true, Hall. by apply list_elem_of_In.
Qed.

Lemma js_and_truthy a b :
  Annotated.truthy (Annotated.js_and a b) = true
  ↔ Annotated.truthy a = true ∧ Annotated.truthy b = true.
Proof. unfold Annotated.js_and. destruct a, b; simpl; naive_solver. Qed.

(** The guard on the sizes lets through the groupings with three groups
    of two bands, and only those. *)
Lemma sizes_guard gs :
  let sizes := map size (Annotated.object_values gs) in
  negb (existsb (λ n, (n =? 2)%nat) sizes
        && (length (List.filter (λ n, (n =? 2)%nat) sizes) =? 3)%nat) = false
  ↔ size (group1 gs) = 2%nat ∧ size (group2 gs) = 2%nat ∧ size (group3 gs) = 2%nat.
Proof.
  simpl.
  destruct (Nat.eqb_spec (size (group1 gs)) 2);
    destruct (Nat.eqb_spec (size (group2 gs)) 2);
    destruct (Nat.eqb_spec (size (group3 gs)) 2); simpl; naive_solver.
Qed.

Lemma match_truthy gs :
  Annotated.truthy (Annotated.groupsMatchDefaultPattern gs) = true
  ↔ (size (group1 gs) = 2%nat ∧ size (group2 gs) = 2%nat ∧ size (group3 gs) = 2%nat)
    ∧ (∃ s, s ∈ Annotated.object_values gs ∧ ∀ b, b ∈ [0; 5] → b ∈ s)
    ∧ (∃ s, s ∈ Annotated.object_values gs ∧ ∀ b, b ∈ [2; 3] → b ∈ s)
    ∧ (∃ s, s ∈ Annotated.object_values gs ∧ ∀ b, b ∈ [1; 4] → b ∈ s).
Proof.
  unfold Annotated.groupsMatchDefaultPattern.
  rewrite <- sizes_guard. cbv zeta.
  destruct (negb _) eqn:Hguard.
  - simpl. naive_solver.
  - rewrite !js_and_truthy, !find_group_truthy. naive_solver.
Qed.

Lemma preset_sets_distinct :
  NoDup [({[0; 5]} : gset Z); {[1; 4]}; {[2; 3]}].
Proof. apply (bool_decide_unpack _). by vm_compute. Qed.

Lemma values_of_size_two gs s :
  size (group1 gs) = 2%nat → size (group2 gs) = 2%nat → size (group3 gs) = 2%nat →
  s ∈ Annotated.object_values gs → size s = 2%nat.
Proof.
  intros H1 H2 H3 Hs. unfold Annotated.object_values in Hs.
  repeat (apply elem_of_cons in Hs as [->|Hs]); try done.
  by apply elem_of_nil in Hs.
Qed.

Lemma match_default_pattern gs :
  Annotated.truthy (Annotated.groupsMatchDefaultPattern gs) = true
  ↔ default_pattern gs.
Proof.
  rewrite match_truthy. unfold default_pattern. split.
  - intros ((H1 & H2 & H3) & (p & Hp & Hpin) & (m & Hm & Hmin) & (l & Hl & Hlin)).
    repeat split; try done.
    assert (p = {[0; 5]}) as ->.
    { apply pair_of_size_two; [by eapply values_of_size_two| lia | |];
        apply Hpin; set_solver. }
    assert (m = {[2; 3]}) as ->.
    { apply pair_of_size_two; [by eapply values_of_size_two| lia | |];
        apply Hmin; set_solver. }
    assert (l = {[1; 4]}) as ->.
    { apply pair_of_size_two; [by eapply values_of_size_two| lia | |];
        apply Hlin; set_solver. }
    symmetry. apply submseteq_length_Permutation; [|done].
    apply NoDup_submseteq; [apply preset_sets_distinct|].
    unfold Annotated.object_values in *.
    intros x Hx.
    repeat (apply elem_of_cons in Hx as [->|Hx]); try done.
    by apply elem_of_nil in Hx.
  - intros (H1 & H2 & H3 & Hperm).
    split; [done|].
    unfold Annotated.object_values.
    repeat split.
    + exists {[0; 5]}. split; [rewrite Hperm|]; set_solver.
    + exists {[2; 3]}. split; [rewrite Hperm|]; set_solver.
    + exists {[1; 4]}. split; [rewrite Hperm|]; set_solver.
Qed.

(** C5. On the annotated page the two callouts are drawn if and only if
    the grouping matches the poles/mid-lats/tropics pattern: the value
    [groupsMatchDefaultPattern] returns is truthy exactly when the three
    groups have two bands each and are {0, 5}, {1, 4} and {2, 3} in some
    order of the group numbers; the chart then carries the two callouts,
    and none otherwise. *)
Theorem C5_annotations_iff_default_pattern gs (groupedData : list series) :
  (Annotated.truthy (Annotated.groupsMatchDefaultPattern gs) = true
   ↔ default_pattern gs)
  ∧ (annotations (Annotated.renderTASChart gs groupedData)
       = [Annotated.top_annotation; Annotated.bottom_annotation]
     ↔ default_pattern gs)
  ∧ (annotations (Annotated.renderTASChart gs groupedData) = []
     ↔ ¬ default_pattern gs).
Proof.
  pose proof (match_default_pattern gs) as Hiff.
  split; [done|].
  unfold Annotated.renderTASChart. simpl.
  destruct (Annotated.truthy _) eqn:Htruthy.
  - split; split; try done.
    + intros _. by apply Hiff.
    + intros Hnot. exfalso. apply Hnot. by apply Hiff.
  - split; split; try done.
    + intros Hpat. apply Hiff in Hpat. done.
    + intros _ Hpat. apply Hiff in Hpat. done.
Qed.

End DefaultPattern.

(** ** [d3.group] and [d3.mean] *)

Section D3Group.

Context {K V : Type} `{EqDecision K} (key : V → K).

Implicit Types (k : K) (v : V) (m : list (K * list V)) (l : list V).

Lemma push_group_keys k v m :
  map fst (d3.push_group k v m)
  = if decide (k ∈ map fst m) then map fst m else map fst m ++ [k].
Proof.
  induction m as [|[k' vs] m IH].
  - by rewrite decide_False by apply not_elem_of_nil.
  - cbn [d3.push_group map fst].
    destruct (decide (k = k')) as [->|Hne]; cbn [map fst].
    + rewrite decide_True; [done | apply elem_of_cons; by left].
    + rewrite IH. destruct (decide (k ∈ map fst m)) as [Hin|Hin].
      * rewrite decide_True; [done | apply elem_of_cons; by right].
      * rewrite decide_False; [done|].
        intros [?|?]%elem_of_cons; congruence.
Qed.

(** The entries after a push: the old ones under another key, the array
    of the key with the value appended, or a new array for a new key. *)
Lemma elem_of_push_group k v m k' vs' :
  NoDup (map fst m) →
  (k', vs') ∈ d3.push_group k v m
  ↔ (k' ≠ k ∧ (k', vs') ∈ m)
    ∨ (k' = k ∧ ∃ vs, (k, vs) ∈ m ∧ vs' = vs ++ [v])
    ∨ (k' = k ∧ (k ∉ map fst m) ∧ vs' = [v]).
Proof.
  induction m as [|[k0 vs0] m IH]; cbn [d3.push_group map fst]; intros Hnodup.
  - rewrite list_elem_of_singleton. split.
    + intros [= -> ->]. right; right. repeat split. apply not_elem_of_nil.
    + intros [[_ Hin]|[(_ & vs & Hin & _)|(-> & _ & ->)]]; try done.
      * by apply elem_of_nil in Hin.
      * by apply elem_of_nil in Hin.
  - apply NoDup_cons in Hnodup as [Hk0 Hnodup].
    assert (Hfresh : ∀ vs, (k0, vs) ∉ m).
    { intros vs Hin. apply Hk0, list_elem_of_fmap. by exists (k0, vs). }
    destruct (decide (k = k0)) as [->|Hne].
    + split.
      * intros [[= -> ->]|Hin]%elem_of_cons.
        -- right; left. split; [done|]. exists vs0. split; [by left|done].
        -- left. split; [|by right]. intros ->. by eapply Hfresh.
      * intros [[Hne Hin]|[(-> & vs & Hin & ->)|(-> & Hnot & _)]].
        -- apply elem_of_cons in Hin as [[= -> ->]|Hin]; [done|].
           apply elem_of_cons. by right.
        -- apply elem_of_cons in Hin as [[= ->]|Hin];
             [apply elem_of_cons; by left|].
           by apply Hfresh in Hin.
        -- exfalso. apply Hnot. cbn. apply elem_of_cons. by left.
    + split.
      * intros [[= -> ->]|Hin]%elem_of_cons.
        -- left. split; [by intros -> | by left].
        -- apply (IH Hnodup) in Hin as
             [[Hne' Hin]|[(-> & vs & Hin & ->)|(-> & Hnot & ->)]].
           ++ left. split; [done | by right].
           ++ right; left. split; [done|]. exists vs. split; [by right | done].
           ++ right; right. repeat split. cbn.
              intros [?|?]%elem_of_cons; done.
      * intros [[Hne' Hin]|[(-> & vs & Hin & ->)|(-> & Hnot & ->)]];
          apply elem_of_cons.
        -- apply elem_of_cons in Hin as [[= -> ->]|Hin]; [by left|].
           right. apply (IH Hnodup). by left.
        -- right. apply (IH Hnodup). right; left. split; [done|].
           apply elem_of_cons in Hin as [[= ? ?]|Hin]; [done|]. by exists vs.
        -- right. apply (IH Hnodup). right; right. repeat split.
           intros Hin. apply Hnot. cbn. apply elem_of_cons. by right.
Qed.


Lemma filter_none (P : V → Prop) `{∀ x, Decision (P x)} l :
  (∀ x, x ∈ l → ¬ P x) → filter P l = [].
Proof.
  induction l as [|x l IH]; intros Hall; [done|].
  rewrite filter_cons_False by (apply Hall; by left).
  apply IH. intros y Hy. apply Hall. by right.
Qed.

Lemma grouped_push l m v :
  d3.grouped key l m → d3.grouped key (l ++ [v]) (d3.push_group (key v) v m).
Proof.
  intros (Hnodup & Hentries & Hkeys). split; [|split].
  - rewrite push_group_keys. case_decide; [done|].
    apply NoDup_app. repeat split; [done| |apply NoDup_singleton].
    intros k Hk Hk'. apply list_elem_of_singleton in Hk' as ->. done.
  - intros k vs Hin.
    apply elem_of_push_group in Hin as
      [[Hne Hin]|[(-> & vs0 & Hin & ->)|(-> & Hnot & ->)]]; [| | |done].
    + destruct (Hentries _ _ Hin) as [-> Hnil]. split; [|done].
      rewrite filter_app, filter_cons_False, filter_nil by congruence.
      by rewrite app_nil_r.
    + destruct (Hentries _ _ Hin) as [-> _]. split.
      * by rewrite filter_app, filter_cons_True, filter_nil by done.
      * by destruct (filter _ l).
    + split; [|done].
      rewrite filter_app, filter_cons_True, filter_nil by done.
      rewrite filter_none; [done|].
      intros v0 Hv0 Heq. apply Hnot. rewrite <- Heq. by apply Hkeys.
  - intros v0 Hv0. rewrite push_group_keys.
    apply elem_of_app in Hv0 as [Hv0|Hv0];
      [|apply list_elem_of_singleton in Hv0 as ->].
    + case_decide; [by apply Hkeys|]. apply elem_of_app. left. by apply Hkeys.
    + case_decide; [done|]. apply elem_of_app. right. by apply list_elem_of_singleton.
Qed.

Lemma group_grouped l : d3.grouped key l (d3.group l key).
Proof.
  unfold d3.group. induction l as [|v l IH] using rev_ind.
  - split; [apply NoDup_nil_2|]. split.
    + intros ? ? Hin. by apply elem_of_nil in Hin.
    + intros ? Hin. by apply elem_of_nil in Hin.
  - rewrite fold_left_app. simpl. by apply grouped_push.
Qed.

(** The keys of the groups are the keys of the values, each once. *)
Lemma group_keys_NoDup l : NoDup (map fst (d3.group l key)).
Proof. apply group_grouped. Qed.

Lemma elem_of_group_keys l k :
  k ∈ map fst (d3.group l key) ↔ ∃ v, v ∈ l ∧ key v = k.
Proof.
  destruct (group_grouped l) as (_ & Hentries & Hkeys). split.
  - intros ([k' vs] & -> & Hin)%list_elem_of_fmap. simpl.
    destruct (Hentries _ _ Hin) as [-> Hne].
    destruct (filter _ l) as [|v vs'] eqn:Hf; [done|].
    assert (v ∈ filter (λ v, key v = k') l) as Hv by (rewrite Hf; by left).
    apply list_elem_of_filter in Hv as [? ?]. eauto.
  - intros (v & Hv & <-). by apply Hkeys.
Qed.

(** The group of a key holds the values of that key, in their order, and
    is never empty. *)
Lemma elem_of_group l k vs :
  (k, vs) ∈ d3.group l key → vs = filter (λ v, key v = k) l ∧ vs ≠ [].
Proof. intros Hin. by apply (group_grouped l). Qed.

End D3Group.

Section D3Mean.

Context {V : Type} (valueof : V → number).

Lemma mean_fold (values : list V) (count : nat) (total : Qc) :
  fold_left (d3.mean_step valueof) values (count, total)
  = ((count + length (numeric (map valueof values)))%nat,
     (total + sum_Qc (numeric (map valueof values)))%Qc).
Proof.
  revert count total.
  induction values as [|v values IH]; intros count total; simpl.
  - f_equal; [lia | unfold sum_Qc; simpl; ring].
  - unfold d3.mean_step at 2. unfold numeric. simpl.
    destruct (valueof v) as [q|]; simpl; rewrite IH; [|done].
    unfold numeric. f_equal; [lia | ring].
Qed.

(** [d3.mean] is the mean of the values that are numbers. *)
Lemma mean_spec (values : list V) :
  d3.mean values valueof = mean_of_numeric (map valueof values).
Proof.
  unfold d3.mean, mean_of_numeric. rewrite mean_fold. cbv zeta. simpl fst. simpl snd.
  destruct (numeric (map valueof values)) as [|q qs]; [done|].
  simpl length. cbv iota. by rewrite Qcplus_0_l.
Qed.

Lemma mean_None (values : list V) :
  d3.mean values valueof = None ↔ ∀ v, v ∈ values → valueof v = NaN.
Proof.
  rewrite mean_spec. unfold mean_of_numeric, numeric. cbv zeta.
  induction values as [|v values IH]; simpl.
  - split; [|done]. intros _ v Hv. by apply elem_of_nil in Hv.
  - destruct (valueof v) as [q|] eqn:Hv; simpl.
    + split; [done|]. intros Hall. specialize (Hall v). rewrite Hv in Hall.
      discriminate Hall. by left.
    + rewrite IH. split.
      * intros Hall v' [->|Hin]%elem_of_cons; [done | by apply Hall].
      * intros Hall v' Hin. apply Hall. by right.
Qed.

End D3Mean.

Lemma numeric_all (xs : list number) :
  (∀ x, x ∈ xs → x ≠ NaN) →
  fold_right add (Num (0%Qc)) xs = Num (sum_Qc (numeric xs))
  ∧ length (numeric xs) = length xs.
Proof.
  induction xs as [|x xs IH]; intros Hall; [done|].
  destruct IH as [IHsum IHlen]; [intros y Hy; apply Hall; by right|].
  destruct x as [q|]; [|exfalso; by apply (Hall NaN); [left|]].
  simpl. rewrite IHsum. unfold numeric in *. simpl. by rewrite IHlen.
Qed.

(** On numbers that are all numeric the two means agree. *)
Lemma mean_of_numeric_all (xs : list number) :
  xs ≠ [] → (∀ x, x ∈ xs → x ≠ NaN) →
  mean_of_numeric xs = Some (arithmetic_mean xs).
Proof.
  intros Hne Hall. destruct (numeric_all xs Hall) as [Hsum Hlen].
  unfold mean_of_numeric, arithmetic_mean. rewrite Hsum.
  destruct xs as [|x xs]; [done|].
  destruct (numeric (x :: xs)) as [|q qs] eqn:Hnum; [done|].
  by rewrite <- Hlen.
Qed.

(** ** The averager *)

Section Averager.

Implicit Types (data : list sample) (gs : groups) (bands : list band)
  (g : nat) (d : sample) (y : number).

(** A callback filter is the filter by the truth of the callback. *)
Lemma callback_filter {A} (f : A → bool) (l : list A) :
  List.filter f l = filter (λ x, f x = true) l.
Proof.
  induction l as [|x l IH]; [done|]. simpl. rewrite filter_cons.
  destruct (f x) eqn:Hfx; case_decide; congruence.
Qed.

Lemma some_of_filter {A} (keep test : A → bool) (l : list A) :
  existsb test (List.filter keep l) = existsb (λ x, keep x && test x) l.
Proof.
  induction l as [|x l IH]; [done|]. simpl.
  destruct (keep x); simpl; by rewrite IH.
Qed.

(** [filtered] holds the samples that fall in a band the group owns. *)
Lemma filtered_of_spec data gs bands g :
  Global.filtered_of data gs bands g
  = filter (λ d, in_owned_band gs bands g d = true) data.
Proof.
  unfold Global.filtered_of. rewrite callback_filter.
  apply list_filter_iff. intros d. unfold in_owned_band.
  by rewrite some_of_filter.
Qed.

(** The samples of a bucket are the matching samples of its year. *)
Lemma bucket_spec data gs bands g y (vs : list sample) :
  (y, vs) ∈ Global.buckets_of data gs bands g →
  vs = matching_samples data gs bands g y ∧ vs ≠ [].
Proof.
  unfold Global.buckets_of. intros Hin.
  apply elem_of_group in Hin as [-> Hne]. split; [|done].
  rewrite filtered_of_spec, list_filter_filter.
  apply list_filter_iff. naive_solver.
Qed.

Lemma bucket_years data gs bands g y :
  y ∈ map fst (Global.buckets_of data gs bands g)
  ↔ ∃ d, d ∈ data ∧ in_owned_band gs bands g d = true ∧ year d = y.
Proof.
  unfold Global.buckets_of. rewrite elem_of_group_keys.
  rewrite filtered_of_spec.
  setoid_rewrite list_elem_of_filter. naive_solver.
Qed.

(** The loop, as a map over the non-empty groups it does not skip. *)
Lemma averages_from_spec (ids : list nat) data gs bands :
  Global.averages_from ids data gs bands
  = map (λ g, {| name := group_name g; values := Global.entries_of data gs bands g |})
        (filter (λ g, group_at gs g ≠ ∅) ids).
Proof.
  induction ids as [|g ids IH]; [done|].
  cbn [Global.averages_from]. rewrite filter_cons.
  destruct (Nat.eqb_spec (size (group_at gs g)) 0) as [Hsize|Hsize].
  - apply size_empty_iff in Hsize. apply leibniz_equiv in Hsize.
    by rewrite decide_False by (intros Hne; by apply Hne).
  - rewrite decide_True;
      [|intros Heq; apply Hsize; rewrite Heq; apply size_empty].
    cbn [map]. rewrite <- IH. f_equal. f_equal.
    unfold Global.entries_of, Global.buckets_of, Global.filtered_of, d3.rollups.
    by rewrite map_map.
Qed.

Lemma averages_spec data gs bands :
  Global.computeGroupAverages data gs bands
  = map (λ g, {| name := group_name g; values := Global.entries_of data gs bands g |})
        (non_empty_groups gs).
Proof. apply averages_from_spec. Qed.

Lemma entries_years data gs bands g :
  map point_year (Global.entries_of data gs bands g)
  = map fst (Global.buckets_of data gs bands g).
Proof. unfold Global.entries_of. by rewrite map_map. Qed.

(** The grouped series has the shape of the specification, the [tas] of
    an entry being the mean of the [tas] values that are numbers. *)
Lemma averages_grouped_series data gs bands :
  grouped_series mean_of_numbers data gs bands
    (Global.computeGroupAverages data gs bands).
Proof.
  exists (Global.entries_of data gs bands). split; [apply averages_spec|].
  intros g _. split; [|split].
  - rewrite entries_years. apply group_keys_NoDup.
  - intros y. rewrite entries_years. apply bucket_years.
  - intros p ([y vs] & -> & Hin)%list_elem_of_fmap. simpl.
    apply bucket_spec in Hin as [-> _].
    unfold mean_of_numbers. apply mean_spec.
Qed.

(** An entry exists only for a year with a matching sample. *)
Lemma matching_samples_nonempty data gs bands g p :
  p ∈ Global.entries_of data gs bands g →
  matching_samples data gs bands g (point_year p) ≠ [].
Proof.
  intros ([y vs] & -> & Hin)%list_elem_of_fmap. simpl.
  by apply bucket_spec in Hin as [<- Hne].
Qed.

(** On a dataset without [NaN] in [tas], the [tas] of an entry is the
    arithmetic mean over all the matching samples. *)
Lemma averages_grouped_series_numeric data gs bands :
  numeric_tas data →
  grouped_series mean_of_all data gs bands
    (Global.computeGroupAverages data gs bands).
Proof.
  intros Hnum. unfold numeric_tas in Hnum. rewrite Forall_forall in Hnum.
  exists (Global.entries_of data gs bands). split; [apply averages_spec|].
  intros g Hg.
  destruct (averages_grouped_series data gs bands) as (vs & Hout & Hvs).
  rewrite averages_spec in Hout.
  split; [|split].
  - rewrite entries_years. apply group_keys_NoDup.
  - intros y. rewrite entries_years. apply bucket_years.
  - intros p Hp.
    pose proof (matching_samples_nonempty _ _ _ _ _ Hp) as Hne.
    destruct (proj1 (list_elem_of_fmap _ _ _) Hp) as ([y ms] & -> & Hin).
    simpl in *. apply bucket_spec in Hin as [-> _].
    rewrite mean_spec. unfold mean_of_all.
    apply mean_of_numeric_all.
    + intros Hnil. apply Hne. by apply fmap_nil_inv in Hnil.
    + intros x (d & -> & Hd)%list_elem_of_fmap.
      apply Hnum. unfold matching_samples in Hd.
      by apply list_elem_of_filter in Hd as [_ Hd].
Qed.

End Averager.

(** ** Claims on the averager *)

(** C1, as stated, fails on a dataset with a [NaN]: for the year 2000 the
    series of group 1 has the mean of the two numbers, 2, where the
    arithmetic mean over the three matching samples is [NaN]. *)
Lemma C1_mean_of_all_matching_counterexample :
  ¬ grouped_series mean_of_all data_with_NaN tropics_north_only Global.latitudeBands
      (Global.computeGroupAverages data_with_NaN tropics_north_only
         Global.latitudeBands).
Proof.
  intros (vs & Hout & Hvs).
  assert (Hg : 1%nat ∈ non_empty_groups tropics_north_only).
  { apply (bool_decide_unpack _). by vm_compute. }
  destruct (Hvs 1%nat Hg) as (_ & _ & Htas).
  assert (Hent : ∃ y q, vs 1%nat = [ {| point_year := y; point_tas := Some (Num q) |} ]).
  { rewrite averages_spec in Hout.
    assert (Hne : non_empty_groups tropics_north_only = [1%nat]) by by vm_compute.
    rewrite Hne in Hout. simpl in Hout. injection Hout as Hout. rewrite <- Hout.
    do 2 eexists. vm_compute. reflexivity. }
  destruct Hent as (y & q & Hent).
  specialize (Htas {| point_year := y; point_tas := Some (Num q) |}).
  rewrite Hent in Htas. specialize (Htas ltac:(by left)).
  simpl in Htas.
  assert (Hy : y = of_Z 2000).
  { destruct (Hvs 1%nat Hg) as (_ & Hyears & _).
    specialize (Hyears y). rewrite Hent in Hyears. simpl in Hyears.
    destruct (proj1 Hyears ltac:(by left)) as (d & Hd & _ & <-).
    unfold data_with_NaN in Hd.
    repeat (apply elem_of_cons in Hd as [->|Hd]); try done.
    by apply elem_of_nil in Hd. }
  subst y.
  assert (Hmean : mean_of_all (matching_samples data_with_NaN tropics_north_only
                                 Global.latitudeBands 1 (of_Z 2000)) = Some NaN)
    by by vm_compute.
  rewrite Hmean in Htas. discriminate Htas.
Qed.

(** C1, amended. For every dataset, grouping and band list,
    [computeGroupAverages] returns one series per non-empty group, in the
    order group 1, 2, 3; the series of a group has exactly one entry per
    distinct year in which a sample falls in a band the group owns; the
    [tas] of the entry is the arithmetic mean of the [tas] values that are
    numbers among the matching samples of that year, and [undefined] when
    none is. When no [tas] of the dataset is [NaN], it is the arithmetic
    mean over all the matching samples. *)
Theorem C1_series_per_group_mean_of_numbers
    (data : list sample) (gs : groups) (bands : list band) :
  grouped_series mean_of_numbers data gs bands
    (Global.computeGroupAverages data gs bands)
  ∧ (numeric_tas data →
     grouped_series mean_of_all data gs bands
       (Global.computeGroupAverages data gs bands)).
Proof.
  split.
  - apply averages_grouped_series.
  - apply averages_grouped_series_numeric.
Qed.

Lemma C1_series_per_group_mean_of_numbers_witness :
  numeric_tas data_numeric
  ∧ grouped_series mean_of_all data_numeric
      (Groups {[0; 5]} {[1; 4]} {[2; 3]}) Global.latitudeBands
      (Global.computeGroupAverages data_numeric
         (Groups {[0; 5]} {[1; 4]} {[2; 3]}) Global.latitudeBands).
Proof.
  assert (Hnum : numeric_tas data_numeric).
  { unfold numeric_tas, data_numeric. repeat constructor; discriminate. }
  split; [exact Hnum|].
  exact (proj2 (C1_series_per_group_mean_of_numbers data_numeric
                  (Groups {[0; 5]} {[1; 4]} {[2; 3]}) Global.latitudeBands) Hnum).
Defined.

(** C10, as stated, fails on a dataset with a [NaN]: the only sample of
    the bucket of 2000 has a [tas] that is not a number, [d3.mean] skips
    it, and the entry of 2000 has an [undefined] [tas]. *)
Lemma C10_undefined_tas_counterexample :
  ¬ no_undefined_tas
      (Global.computeGroupAverages data_only_NaN tropics_north_only
         Global.latitudeBands).
Proof.
  intros Hdefined.
  assert (Hout :
    Global.computeGroupAverages data_only_NaN tropics_north_only
      Global.latitudeBands
    = [ {| name := group_name 1;
           values := [ {| point_year := of_Z 2000; point_tas := None |} ] |} ])
    by by vm_compute.
  apply (Hdefined
           {| name := group_name 1;
              values := [ {| point_year := of_Z 2000; point_tas := None |} ] |}
           {| point_year := of_Z 2000; point_tas := None |}).
  - rewrite Hout. by left.
  - by left.
  - reflexivity.
Qed.

(** C10, amended. For every dataset and grouping, every per-year bucket
    over which [computeGroupAverages] takes a mean is non-empty: it holds
    the matching samples of its year. Every entry of the output is the
    mean over such a bucket, and its [tas] is [undefined] exactly when the
    [tas] of every sample of the bucket is [NaN]. So on a dataset without
    [NaN] in [tas] the output never contains an [undefined] [tas]. *)
Theorem C10_buckets_non_empty_tas_defined
    (data : list sample) (gs : groups) (bands : list band) :
  (∀ g y (ms : list sample),
     (y, ms) ∈ Global.buckets_of data gs bands g →
     ms ≠ [] ∧ ms = matching_samples data gs bands g y)
  ∧ (∀ s p,
       s ∈ Global.computeGroupAverages data gs bands → p ∈ values s →
       ∃ g ms,
         (point_year p, ms) ∈ Global.buckets_of data gs bands g
         ∧ point_tas p = d3.mean ms tas
         ∧ (point_tas p = None ↔ ∀ d, d ∈ ms → tas d = NaN))
  ∧ (numeric_tas data →
     no_undefined_tas (Global.computeGroupAverages data gs bands)).
Proof.
  assert (Hbuckets : ∀ g y (ms : list sample),
    (y, ms) ∈ Global.buckets_of data gs bands g →
    ms ≠ [] ∧ ms = matching_samples data gs bands g y).
  { intros g y ms Hin. by apply bucket_spec in Hin as [? ?]. }
  assert (Hentries : ∀ s p,
    s ∈ Global.computeGroupAverages data gs bands → p ∈ values s →
    ∃ g ms,
      (point_year p, ms) ∈ Global.buckets_of data gs bands g
      ∧ point_tas p = d3.mean ms tas
      ∧ (point_tas p = None ↔ ∀ d, d ∈ ms → tas d = NaN)).
  { intros s p Hs Hp. rewrite averages_spec in Hs.
    apply list_elem_of_fmap in Hs as (g & -> & _). simpl in Hp.
    apply list_elem_of_fmap in Hp as ([y ms] & -> & Hin). simpl.
    exists g, ms. repeat split; [done|apply mean_None..]. }
  split; [done|]. split; [done|].
  intros Hnum s p Hs Hp Hnone.
  destruct (Hentries s p Hs Hp) as (g & ms & Hin & _ & Hiff).
  destruct (Hbuckets _ _ _ Hin) as [Hne Hms].
  destruct ms as [|d ms]; [done|].
  assert (Hd : d ∈ matching_samples data gs bands g (point_year p))
    by (rewrite <- Hms; by left).
  apply list_elem_of_filter in Hd as [_ Hd].
  unfold numeric_tas in Hnum. rewrite Forall_forall in Hnum.
  apply (Hnum d Hd). apply Hiff; [done | by left].
Qed.

Lemma C10_buckets_non_empty_tas_defined_witness :
  numeric_tas data_numeric
  ∧ no_undefined_tas
      (Global.computeGroupAverages data_numeric
         (Groups {[0; 5]} {[1; 4]} {[2; 3]}) Global.latitudeBands).
Proof.
  assert (Hnum : numeric_tas data_numeric).
  { unfold numeric_tas, data_numeric. repeat constructor; discriminate. }
  split; [exact Hnum|].
  exact (proj2 (proj2 (C10_buckets_non_empty_tas_defined data_numeric
                         (Groups {[0; 5]} {[1; 4]} {[2; 3]})
                         Global.latitudeBands)) Hnum).
Defined.

(** ** The latitude bands *)

Section Bands.

(** The comparisons of the language against an integer constant, as
    inequalities between rationals. *)
Lemma ge_of_Z (q : Qc) (c : Z) :
  ge (Num q) (of_Z c) = true ↔ (inject_Z c <= q)%Q.
Proof.
  unfold ge, of_Z.
  transitivity (Q2Qc (inject_Z c) <= q)%Qc.
  - rewrite (Qcge_alt q (Q2Qc (inject_Z c))).
    destruct (q ?= Q2Qc (inject_Z c))%Qc; split; done.
  - unfold Qcle. simpl. by rewrite Qred_correct.
Qed.

Lemma lt_of_Z (q : Qc) (c : Z) :
  lt (Num q) (of_Z c) = true ↔ (q < inject_Z c)%Q.
Proof.
  unfold lt, of_Z.
  transitivity (q < Q2Qc (inject_Z c))%Qc.
  - rewrite (Qclt_alt q (Q2Qc (inject_Z c))).
    destruct (q ?= Q2Qc (inject_Z c))%Qc; split; done.
  - unfold Qclt. simpl. by rewrite Qred_correct.
Qed.

Lemma in_band_of_Z (d : sample) (q : Qc) (i lo hi : Z) :
  lat d = Num q →
  Global.in_band d (Band i (of_Z lo) (of_Z hi)) = true
  ↔ (inject_Z lo <= q)%Q ∧ (q < inject_Z hi)%Q.
Proof.
  intros Hlat. unfold Global.in_band. simpl. rewrite Hlat.
  by rewrite andb_true_iff, ge_of_Z, lt_of_Z.
Qed.

(** Below 90 degrees the bands do partition the span: a latitude in
    [-90, 90) falls in exactly one of the six bands. *)
Lemma one_band_below_90 (d : sample) (q : Qc) :
  lat d = Num q → (inject_Z (-90) <= q)%Q → (q < inject_Z 90)%Q →
  ∃ b, b ∈ Global.latitudeBands ∧ Global.in_band d b = true
       ∧ ∀ b', b' ∈ Global.latitudeBands → Global.in_band d b' = true → b' = b.
Proof.
  intros Hlat Hlo Hhi.
  assert (Hcases :
    (q < inject_Z (-60) ∨ (inject_Z (-60) <= q ∧ q < inject_Z (-30))
     ∨ (inject_Z (-30) <= q ∧ q < inject_Z 0)
     ∨ (inject_Z 0 <= q ∧ q < inject_Z 30)
     ∨ (inject_Z 30 <= q ∧ q < inject_Z 60)
     ∨ inject_Z 60 <= q)%Q).
  { destruct (Qlt_le_dec q (inject_Z (-60))); [by left|right].
    destruct (Qlt_le_dec q (inject_Z (-30))); [by left|right].
    destruct (Qlt_le_dec q (inject_Z 0)); [by left|right].
    destruct (Qlt_le_dec q (inject_Z 30)); [by left|right].
    destruct (Qlt_le_dec q (inject_Z 60)); [by left|by right]. }
  unfold Global.latitudeBands.
  destruct Hcases as [H|[[H H']|[[H H']|[[H H']|[[H H']|H]]]]];
    [exists (Band 0 (of_Z (-90)) (of_Z (-60)))
    |exists (Band 1 (of_Z (-60)) (of_Z (-30)))
    |exists (Band 2 (of_Z (-30)) (of_Z 0))
    |exists (Band 3 (of_Z 0) (of_Z 30))
    |exists (Band 4 (of_Z 30) (of_Z 60))
    |exists (Band 5 (of_Z 60) (of_Z 90))];
    (split; [set_solver|]);
    (split; [by apply (in_band_of_Z d q)|]);
    intros b' Hb' Hin;
    repeat (apply elem_of_cons in Hb' as [->|Hb']);
    try (by apply elem_of_nil in Hb');
    try reflexivity;
    apply (in_band_of_Z d q) in Hin as [Hin Hin']; try done;
    exfalso; unfold inject_Z in *; lra.
Qed.

End Bands.

(** C4. The sample at 90 degrees north passes the membership test
    [lat >= min && lat < max] of no band, so that with every band assigned
    it reaches the series of no group; the first variant of the page, whose
    test is [lat >= min && lat <= max], has it in its Arctic band. *)
Theorem C4_north_pole_in_no_band :
  (∀ b, b ∈ Global.latitudeBands → Global.in_band north_pole b = false)
  ∧ map values
      (Global.computeGroupAverages [north_pole]
         (Groups {[0; 5]} {[1; 4]} {[2; 3]}) Global.latitudeBands)
    = [[]; []; []]
  ∧ (∃ b, b ∈ Fixed.bands ∧ Fixed.in_band north_pole b = true).
Proof.
  split; [|split].
  - intros b Hb. unfold Global.latitudeBands in Hb.
    repeat (apply elem_of_cons in Hb as [->|Hb]); try by vm_compute.
    by apply elem_of_nil in Hb.
  - by vm_compute.
  - exists (Fixed.NamedBand "Arctic (60°–90°N)" (of_Z 60) (of_Z 90)).
    split; [|by vm_compute]. unfold Fixed.bands. set_solver.
Qed.

(** ** The data loader *)

(** C6. The loader makes one request and never a second one. When the
    request is rejected, the error is logged on the console and the loader
    returns [undefined]; that is its only failure. When the request
    resolves, nothing is logged and the loader returns one record per row,
    whose three fields are the numbers unary plus makes of the cells. *)
Theorem C6_loader_one_failure_mode
    (StringToNumber : string → number) (w : d3.world) :
  let result := fst (loadTASData StringToNumber w) in
  let w' := snd (loadTASData StringToNumber w) in
  d3.requested w' = d3.requested w ++ ["data/zonal_anomaly.csv"%string]
  ∧ d3.pending w' = tail (d3.pending w)
  ∧ match settles_to w with
    | Rejected error =>
        result = None
        ∧ d3.console w' = d3.console w ++ [("Error loading data:"%string, error)]
    | Resolved rows =>
        d3.console w' = d3.console w
        ∧ ∃ tasData,
            result = Some tasData
            ∧ length tasData = length rows
            ∧ ∀ i d, rows !! i = Some d →
                tasData !! i
                = Some {| year := to_number StringToNumber (cell_year d);
                          lat := to_number StringToNumber (cell_lat d);
                          tas := to_number StringToNumber (cell_tas d) |}
    end.
Proof.
  unfold loadTASData, settles_to, mbind, d3.IO_bind, d3.csv.
  destruct (d3.pending w) as [|[rows|error] rest]; simpl; repeat split.
  exists (map (row_to_sample StringToNumber) rows).
  split; [done|]. split; [apply length_map|].
  intros i d Hd. change (map ?f ?l) with (f <$> l).
  by rewrite list_lookup_fmap, Hd.
Qed.

(** * Further properties *)

(** ** More on the click cycle *)

Section MoreClicks.

Implicit Types (ug : groups) (b x : Z).

Lemma memberships_eq ug ug' :
  (∀ x, memberships ug x = memberships ug' x) → ug = ug'.
Proof.
  intros Hall. destruct ug as [g1 g2 g3], ug' as [h1 h2 h3].
  f_equal; apply set_eq; intros x; specialize (Hall x);
    unfold memberships in Hall; simpl in Hall;
    injection Hall as H1 H2 H3.
  - by rewrite <- (bool_decide_spec (x ∈ g1)), H1, bool_decide_spec.
  - by rewrite <- (bool_decide_spec (x ∈ g2)), H2, bool_decide_spec.
  - by rewrite <- (bool_decide_spec (x ∈ g3)), H3, bool_decide_spec.
Qed.

Lemma memberships_click_other ug b x :
  b ≠ x → memberships (Global.handleBandClick b ug) x = memberships ug x.
Proof.
  intros Hne. unfold memberships.
  pose proof (click_frame ug b x 1%nat Hne) as H1.
  pose proof (click_frame ug b x 2%nat Hne) as H2.
  pose proof (click_frame ug b x 3%nat Hne) as H3.
  simpl in H1, H2, H3.
  f_equal; [f_equal|]; by apply bool_decide_ext.
Qed.

Lemma memberships_click_same ug b :
  memberships (Global.handleBandClick b ug) b = clicked (memberships ug b).
Proof.
  unfold memberships.
  destruct (click_cases ug b) as
    [(H1&->)|[(H1&H2&->)|[(H1&H2&H3&->)|(H1&H2&H3&->)]]]; simpl.
  - rewrite (bool_decide_eq_true_2 (b ∈ group1 ug)) by done. simpl.
    rewrite bool_decide_eq_false_2 by set_solver.
    rewrite bool_decide_eq_true_2 by set_solver. done.
  - rewrite (bool_decide_eq_false_2 (b ∈ group1 ug)) by done.
    rewrite (bool_decide_eq_true_2 (b ∈ group2 ug)) by done. simpl.
    rewrite bool_decide_eq_false_2 by set_solver.
    rewrite bool_decide_eq_true_2 by set_solver. done.
  - rewrite (bool_decide_eq_false_2 (b ∈ group1 ug)) by done.
    rewrite (bool_decide_eq_false_2 (b ∈ group2 ug)) by done.
    rewrite (bool_decide_eq_true_2 (b ∈ group3 ug)) by done. simpl.
    rewrite bool_decide_eq_false_2 by set_solver. done.
  - rewrite (bool_decide_eq_false_2 (b ∈ group1 ug)) by done.
    rewrite (bool_decide_eq_false_2 (b ∈ group2 ug)) by done.
    rewrite (bool_decide_eq_false_2 (b ∈ group3 ug)) by done. simpl.
    rewrite bool_decide_eq_true_2 by set_solver. done.
Qed.

Lemma memberships_iter_other ug b x (k : nat) :
  b ≠ x →
  memberships (Nat.iter k (Global.handleBandClick b) ug) x = memberships ug x.
Proof.
  intros Hne. induction k as [|k IH]; [done|].
  simpl. by rewrite memberships_click_other.
Qed.

Lemma memberships_iter_same ug b (k : nat) :
  memberships (Nat.iter k (Global.handleBandClick b) ug) b
  = Nat.iter k clicked (memberships ug b).
Proof.
  induction k as [|k IH]; [done|].
  simpl. by rewrite memberships_click_same, IH.
Qed.

(** In a disjoint grouping a band is in no group or in exactly one. *)
Lemma memberships_disjoint ug x :
  disjoint_groups ug →
  memberships ug x ∈ [(false, false, false); (true, false, false);
                      (false, true, false); (false, false, true)].
Proof.
  intros (H12 & H13 & H23). unfold memberships.
  destruct (decide (x ∈ group1 ug)) as [H1|H1],
           (decide (x ∈ group2 ug)) as [H2|H2],
           (decide (x ∈ group3 ug)) as [H3|H3];
    try (exfalso; by eapply H12);
    try (exfalso; by eapply H13);
    try (exfalso; by eapply H23);
    repeat (first [rewrite bool_decide_eq_true_2 by done
                  |rewrite bool_decide_eq_false_2 by done]);
    set_solver.
Qed.

Lemma clicked_mod_4 (m : bool * bool * bool) (k : nat) :
  m ∈ [(false, false, false); (true, false, false);
       (false, true, false); (false, false, true)] →
  Nat.iter k clicked m = Nat.iter (k mod 4) clicked m.
Proof.
  intros Hm. induction k as [k IH] using lt_wf_ind.
  destruct (decide (k < 4)%nat) as [Hlt|Hge].
  - by rewrite Nat.mod_small.
  - assert (∃ k', k = (k' + 4)%nat) as [k' ->] by (exists (k - 4)%nat; lia).
    assert (Hfour : Nat.iter 4 clicked m = m).
    { repeat (apply elem_of_cons in Hm as [->|Hm]); try done.
      by apply elem_of_nil in Hm. }
    rewrite Nat.iter_add, Hfour, IH by lia.
    f_equal. replace (k' + 4)%nat with (k' + 1 * 4)%nat by lia.
    by rewrite Nat.Div0.mod_add.
Qed.

Lemma click_period ug b (k : nat) :
  disjoint_groups ug →
  Nat.iter k (Global.handleBandClick b) ug = ug ↔ (k mod 4 = 0)%nat.
Proof.
  intros Hdis.
  pose proof (memberships_disjoint ug b Hdis) as Hm.
  assert (Hiff : Nat.iter k (Global.handleBandClick b) ug = ug
                 ↔ Nat.iter k clicked (memberships ug b) = memberships ug b).
  { rewrite <- memberships_iter_same. split; [by intros ->|].
    intros Hsame. apply memberships_eq. intros x.
    destruct (decide (b = x)) as [<-|Hne]; [done|].
    by apply memberships_iter_other. }
  rewrite Hiff, (clicked_mod_4 _ k Hm).
  pose proof (Nat.mod_upper_bound k 4 ltac:(lia)) as Hr.
  destruct (k mod 4)%nat as [|[|[|[|r]]]]; [|..|lia];
    repeat (apply elem_of_cons in Hm as [->|Hm]);
    try (by apply elem_of_nil in Hm); simpl; split; done.
Qed.

(** The grouping of a session is the fold of the clicks. *)
Lemma global_session_groups tasData clicks p :
  userGroups (Global.session tasData clicks p)
  = fold_left (λ ug d, Global.handleBandClick (band_id d) ug) clicks (userGroups p).
Proof.
  unfold Global.session. revert p.
  induction clicks as [|d clicks IH]; intros p; [done|].
  simpl. by rewrite IH, global_on_click_groups.
Qed.

Lemma fold_clicks_replicate (k : nat) d ug :
  fold_left (λ ug d, Global.handleBandClick (band_id d) ug) (replicate k d) ug
  = Nat.iter k (Global.handleBandClick (band_id d)) ug.
Proof.
  revert ug. induction k as [|k IH]; intros ug; [done|].
  simpl. rewrite IH. clear IH.
  induction k as [|k IH]; [done|]. simpl. by rewrite IH.
Qed.

(** The memberships after each strip of [strips] has been clicked [n d]
    times. *)
Lemma memberships_fold_clicks (n : band → nat) (strips : list band) ug x :
  NoDup (map band_id strips) →
  memberships
    (fold_left (λ ug d, Global.handleBandClick (band_id d) ug)
       (flat_map (λ d, replicate (n d) d) strips) ug) x
  = match List.find (λ d, bool_decide (band_id d = x)) strips with
    | Some d => Nat.iter (n d) clicked (memberships ug x)
    | None => memberships ug x
    end.
Proof.
  revert ug. induction strips as [|d strips IH]; intros ug Hnodup; [done|].
  simpl in Hnodup. apply NoDup_cons in Hnodup as [Hd Hnodup].
  simpl. rewrite fold_left_app, fold_clicks_replicate, (IH _ Hnodup).
  case_bool_decide as Hx.
  - subst x. rewrite memberships_iter_same.
    destruct (List.find _ strips) as [d'|] eqn:Hfind; [|done].
    apply find_some in Hfind as [Hin Heq].
    apply bool_decide_eq_true in Heq. exfalso. apply Hd.
    rewrite <- Heq. apply list_elem_of_fmap. exists d'.
    split; [done | by apply list_elem_of_In].
  - by rewrite memberships_iter_other.
Qed.

Lemma clicks_for_on_map ug : Forall on_map (clicks_for ug).
Proof.
  unfold clicks_for, on_map. apply Forall_forall. intros d Hd.
  apply list_elem_of_In, in_flat_map in Hd as (d' & Hd' & Hrep).
  apply list_elem_of_In, elem_of_replicate in Hrep as [-> _].
  by apply list_elem_of_In.
Qed.

(** The session [clicks_for ug] ends in [ug]. *)
Lemma clicks_for_reach tasData ug :
  disjoint_groups ug → within_map ug →
  userGroups (Global.session tasData (clicks_for ug) (Global.start tasData)) = ug.
Proof.
  intros Hdis Hin.
  rewrite global_session_groups, global_start_groups.
  apply memberships_eq. intros x. unfold clicks_for.
  rewrite memberships_fold_clicks
    by (apply (bool_decide_unpack _); by vm_compute).
  pose proof (memberships_disjoint ug x Hdis) as Hm.
  destruct (List.find _ Global.latitudeBands) as [d|] eqn:Hfind.
  - apply find_some in Hfind as [_ Heq]. apply bool_decide_eq_true in Heq.
    subst x. unfold clicks_needed, assignment, group_ids. simpl.
    unfold memberships in *. simpl in Hm.
    repeat (apply elem_of_cons in Hm as [Hm|Hm]);
      try (by apply elem_of_nil in Hm);
      injection Hm as -> -> ->; done.
  - assert (Hout : x ∉ band_ids).
    { unfold band_ids. rewrite elem_of_list_to_set, list_elem_of_fmap.
      intros (d & -> & Hd). apply list_elem_of_In in Hd.
      apply (find_none _ _ Hfind) in Hd. by apply bool_decide_eq_false in Hd. }
    unfold within_map in Hin. unfold memberships. simpl.
    rewrite !bool_decide_eq_false_2; [done|..]; set_solver.
Qed.

End MoreClicks.

(** ** The map and the chart along a session *)

Section PageInvariants.

Implicit Types (ug : groups) (p : page) (d : band).



Lemma annotated_fill_assignment ug d :
  Annotated.fill ug d = assignment ug (band_id d).
Proof. reflexivity. Qed.










(** The assignment names a group that has the band, and the only one
    when the groups are disjoint. *)
Lemma assignment_Some ug b (g : nat) :
  assignment ug b = Some g → g ∈ group_ids ∧ b ∈ group_at ug g.
Proof.
  unfold assignment. intros Hfind. apply find_some in Hfind as [Hin Hb].
  split; [by apply list_elem_of_In | by apply bool_decide_eq_true in Hb].
Qed.

Lemma assignment_None ug b :
  assignment ug b = None ↔ ∀ g, g ∈ group_ids → b ∉ group_at ug g.
Proof.
  unfold assignment. split.
  - intros Hfind g Hg Hb. apply list_elem_of_In in Hg.
    apply (find_none _ _ Hfind) in Hg.
    by apply bool_decide_eq_false in Hg.
  - intros Hall. destruct (List.find _ _) as [g|] eqn:Hfind; [|done].
    apply find_some in Hfind as [Hin Hb]. exfalso.
    apply (Hall g); [by apply list_elem_of_In|].
    by apply bool_decide_eq_true in Hb.
Qed.

Lemma assignment_disjoint ug b (g : nat) :
  one_group_per_band ug → g ∈ group_ids →
  assignment ug b = Some g ↔ b ∈ group_at ug g.
Proof.
  intros Hone Hg. split; [by intros [_ ?]%assignment_Some|].
  intros Hb. destruct (assignment ug b) as [g'|] eqn:Ha.
  - apply assignment_Some in Ha as [Hg' Hb']. f_equal. by eapply Hone.
  - exfalso. by eapply assignment_None.
Qed.

(** *** After a failed load *)

(** With [undefined] for the data the averages are the empty array or the
    TypeError. *)
Lemma global_averages_undefined ug bands :
  Global.averages_of_loaded None ug bands = Some []
  ∨ Global.averages_of_loaded None ug bands = None.
Proof. unfold Global.averages_of_loaded. destruct (forallb _ _); auto. Qed.

Lemma global_update_blank p :
  linechart p = blank_chart →
  linechart (Global.updateChartFromGroups None p) = blank_chart.
Proof.
  intros Hp. unfold Global.updateChartFromGroups.
  by destruct (global_averages_undefined (userGroups p) Global.latitudeBands)
    as [-> | ->].
Qed.

Lemma strips_update_blank p :
  linechart p = blank_chart →
  linechart (Strips.updateChartFromGroups None p) = blank_chart.
Proof. apply global_update_blank. Qed.

(** No group matches the pattern when every group is empty. *)
Lemma no_pattern_when_empty ug :
  forallb (λ g, (size (group_at ug g) =? 0)%nat) group_ids = true →
  Annotated.truthy (Annotated.groupsMatchDefaultPattern ug) = false.
Proof.
  intros Hempty. apply not_true_iff_false. intros Htruthy.
  apply match_default_pattern in Htruthy as (Hsize & _).
  simpl in Hempty. apply andb_true_iff in Hempty as [Hzero _].
  apply Nat.eqb_eq in Hzero. lia.
Qed.

Lemma annotated_update_blank p :
  linechart p = blank_chart →
  linechart (Annotated.updateChartFromGroups None p) = blank_chart.
Proof.
  intros Hp.
  unfold Annotated.updateChartFromGroups, Annotated.averages_of_loaded.
  destruct (forallb _ _) eqn:Hempty; [|done].
  simpl. unfold Annotated.renderTASChart.
  by rewrite (no_pattern_when_empty _ Hempty).
Qed.

Lemma global_session_blank clicks p :
  linechart p = blank_chart →
  linechart (Global.session None clicks p) = blank_chart.
Proof.
  unfold Global.session. revert p.
  induction clicks as [|d clicks IH]; intros p Hp; [done|].
  simpl. apply IH. unfold Global.on_click. by apply global_update_blank.
Qed.

Lemma strips_session_blank clicks p :
  linechart p = blank_chart →
  linechart (Strips.session None clicks p) = blank_chart.
Proof.
  unfold Strips.session. revert p.
  induction clicks as [|d clicks IH]; intros p Hp; [done|].
  simpl. apply IH. unfold Strips.on_click. by apply strips_update_blank.
Qed.

Lemma annotated_session_blank events p :
  linechart p = blank_chart →
  linechart (Annotated.session None events p) = blank_chart.
Proof.
  unfold Annotated.session. revert p.
  induction events as [|e events IH]; intros p Hp; [done|].
  simpl. apply IH.
  destruct e; simpl;
    unfold Annotated.on_click, Annotated.on_clear_all,
      Annotated.on_restore_defaults;
    by apply annotated_update_blank.
Qed.

(** *** The pattern and the listeners *)

Lemma click_breaks_pattern ug (b : Z) :
  default_pattern ug → ¬ default_pattern (Global.handleBandClick b ug).
Proof.
  intros (S1 & S2 & S3 & _) (S1' & S2' & S3' & _).
  destruct (click_cases ug b) as
    [(H1&Heq)|[(H1&H2&Heq)|[(H1&H2&H3&Heq)|(H1&H2&H3&Heq)]]];
    rewrite Heq in S1', S2', S3'; simpl in S1', S2', S3'.
  - rewrite size_difference, size_singleton in S1' by set_solver. lia.
  - rewrite size_difference, size_singleton in S2' by set_solver. lia.
  - rewrite size_difference, size_singleton in S3' by set_solver. lia.
  - rewrite size_union, size_singleton in S1' by set_solver. lia.
Qed.

(** With the data loaded, the chart a listener leaves has the callouts
    exactly when the grouping it leaves matches the pattern. *)
Lemma annotated_update_annotations data p :
  annotations (linechart (Annotated.updateChartFromGroups (Some data) p))
  = if Annotated.truthy (Annotated.groupsMatchDefaultPattern (userGroups p))
    then [Annotated.top_annotation; Annotated.bottom_annotation]
    else [].
Proof. reflexivity. Qed.

Lemma preset_matches : default_pattern preset.
Proof.
  apply match_default_pattern. by vm_compute.
Qed.

End PageInvariants.

(** ** More on [d3.group] *)

Section MoreD3Group.

Context {K V : Type} `{EqDecision K} (key : V → K).

Implicit Types (k : K) (v : V) (m : list (K * list V)) (l : list V).

Lemma push_group_concat k v m :
  concat (map snd (d3.push_group k v m)) ≡ₚ v :: concat (map snd m).
Proof.
  induction m as [|[k' vs] m IH]; [done|].
  cbn [d3.push_group]. destruct (decide (k = k')) as [->|Hne]; cbn.
  - rewrite <- (assoc_L (++)). simpl. symmetry. apply Permutation_middle.
  - rewrite IH. symmetry. apply Permutation_middle.
Qed.

(** Grouping loses no value and repeats none. *)
Lemma group_concat l : concat (map snd (d3.group l key)) ≡ₚ l.
Proof.
  unfold d3.group. induction l as [|v l IH] using rev_ind; [done|].
  rewrite fold_left_app. simpl. rewrite push_group_concat, IH.
  by rewrite Permutation_app_comm.
Qed.

Lemma group_nil l : d3.group l key = [] ↔ l = [].
Proof.
  split; [|by intros ->].
  intros Hnil. destruct l as [|v l]; [done|]. exfalso.
  assert (Hin : key v ∈ map fst (d3.group (v :: l) key)).
  { apply elem_of_group_keys. exists v. split; [by left | done]. }
  rewrite Hnil in Hin. by apply elem_of_nil in Hin.
Qed.

End MoreD3Group.

(** ** More on the averager *)

Section MoreAverager.

Implicit Types (data : list sample) (gs : groups) (bands : list band)
  (g : nat) (d : sample).

Lemma entries_nil data gs bands g :
  Global.entries_of data gs bands g = []
  ↔ ∀ d, d ∈ data → in_owned_band gs bands g d = false.
Proof.
  unfold Global.entries_of, Global.buckets_of.
  rewrite filtered_of_spec. split.
  - intros Hnil%fmap_nil_inv%group_nil d Hd.
    apply not_true_iff_false. intros Hin.
    assert (d ∈ filter (λ d, in_owned_band gs bands g d = true) data) as Hf
      by by apply list_elem_of_filter.
    rewrite Hnil in Hf. by apply elem_of_nil in Hf.
  - intros Hall. rewrite filter_none; [done|].
    intros d Hd Hin. specialize (Hall d Hd). congruence.
Qed.

Lemma group_name_inj g g' :
  g ∈ group_ids → g' ∈ group_ids → group_name g = group_name g' → g = g'.
Proof.
  unfold group_ids. intros Hg Hg'.
  repeat (apply elem_of_cons in Hg as [->|Hg]);
    try (by apply elem_of_nil in Hg);
    repeat (apply elem_of_cons in Hg' as [->|Hg']);
    try (by apply elem_of_nil in Hg');
    by vm_compute.
Qed.

Lemma non_empty_groups_ids gs g :
  g ∈ non_empty_groups gs ↔ g ∈ group_ids ∧ group_at gs g ≠ ∅.
Proof. unfold non_empty_groups. rewrite list_elem_of_filter. tauto. Qed.

Lemma averages_nil data gs bands :
  Global.computeGroupAverages data gs bands = []
  ↔ ∀ g, g ∈ group_ids → group_at gs g = ∅.
Proof.
  rewrite averages_spec. split.
  - intros Hnil%fmap_nil_inv g Hg.
    destruct (decide (group_at gs g = ∅)) as [|Hne]; [done|]. exfalso.
    assert (g ∈ non_empty_groups gs) as Hin by by apply non_empty_groups_ids.
    rewrite Hnil in Hin. by apply elem_of_nil in Hin.
  - intros Hall. unfold non_empty_groups.
    rewrite filter_none; [done|]. intros g Hg Hne. by apply Hne, Hall.
Qed.

(** The series of the result, by group. *)
Lemma elem_of_averages data gs bands s :
  s ∈ Global.computeGroupAverages data gs bands
  ↔ ∃ g, g ∈ group_ids ∧ group_at gs g ≠ ∅
         ∧ s = {| name := group_name g;
                  values := Global.entries_of data gs bands g |}.
Proof.
  rewrite averages_spec, list_elem_of_fmap.
  setoid_rewrite non_empty_groups_ids. naive_solver.
Qed.

(** A sample that falls in no band is in no [filtered]. *)
Lemma filtered_without data1 data2 d gs bands g :
  (∀ b, b ∈ bands → Global.in_band d b = false) →
  Global.filtered_of (data1 ++ d :: data2) gs bands g
  = Global.filtered_of (data1 ++ data2) gs bands g.
Proof.
  intros Hout. unfold Global.filtered_of.
  rewrite !List.filter_app. f_equal. simpl.
  replace (existsb _ _) with false; [done|]. symmetry.
  apply not_true_iff_false. intros (b & Hb & Hin)%existsb_exists.
  apply filter_In in Hb as [Hb _]. apply list_elem_of_In in Hb.
  rewrite (Hout b Hb) in Hin. done.
Qed.

Lemma in_band_NaN d b : lat d = NaN → Global.in_band d b = false.
Proof. intros Hlat. unfold Global.in_band. by rewrite Hlat. Qed.

Lemma averages_without data1 data2 d gs bands :
  (∀ b, b ∈ bands → Global.in_band d b = false) →
  Global.computeGroupAverages (data1 ++ d :: data2) gs bands
  = Global.computeGroupAverages (data1 ++ data2) gs bands.
Proof.
  intros Hout. rewrite !averages_spec. apply map_ext. intros g.
  f_equal. unfold Global.entries_of, Global.buckets_of.
  by rewrite filtered_without.
Qed.

End MoreAverager.

Section NoDoubleCount.

Implicit Types (data : list sample) (gs : groups) (d : sample) (g : nat).

(** A latitude passes the test of at most one band of the map. *)
Lemma at_most_one_band d b b' :
  b ∈ Global.latitudeBands → b' ∈ Global.latitudeBands →
  Global.in_band d b = true → Global.in_band d b' = true → b = b'.
Proof.
  intros Hb Hb' Hin Hin'.
  destruct (lat d) as [q|] eqn:Hlat;
    [|by rewrite in_band_NaN in Hin].
  unfold Global.latitudeBands in Hb, Hb'.
  repeat (apply elem_of_cons in Hb as [->|Hb]);
    try (by apply elem_of_nil in Hb);
    apply (in_band_of_Z d q) in Hin as [Hlo Hhi]; try done;
    repeat (apply elem_of_cons in Hb' as [->|Hb']);
    try (by apply elem_of_nil in Hb');
    try reflexivity;
    apply (in_band_of_Z d q) in Hin' as [Hlo' Hhi']; try done;
    exfalso; unfold inject_Z in *; lra.
Qed.

Lemma in_owned_band_spec gs bands g d :
  in_owned_band gs bands g d = true
  ↔ ∃ b, b ∈ bands ∧ band_id b ∈ group_at gs g ∧ Global.in_band d b = true.
Proof.
  unfold in_owned_band. rewrite existsb_exists. split.
  - intros (b & Hb & [Hid Hin]%andb_true_iff). exists b.
    split; [by apply list_elem_of_In|].
    split; [by apply bool_decide_eq_true in Hid | done].
  - intros (b & Hb & Hid & Hin). exists b.
    split; [by apply list_elem_of_In|]. apply andb_true_iff.
    split; [by apply bool_decide_eq_true | done].
Qed.

End NoDoubleCount.

Section InOrder.

Context {V : Type} (key : V → number).

Lemma le_lt (a b : number) : JS.le a b = true → a ≠ b → JS.lt a b = true.
Proof.
  destruct a as [x|], b as [y|]; simpl; try done.
  destruct (x ?= y)%Qc eqn:Hc; try done.
  intros _ Hne. exfalso. apply Hne. f_equal. by apply Qceq_alt.
Qed.

Lemma StronglySorted_filter_list {A} (R : relation A) (P : A → Prop)
    `{∀ x, Decision (P x)} (l : list A) :
  StronglySorted R l → StronglySorted R (filter P l).
Proof.
  induction 1 as [|x l Hl IH Hx]; [constructor|].
  rewrite filter_cons. case_decide; [|done].
  constructor; [done|].
  apply Forall_forall. intros y [_ Hy]%list_elem_of_filter.
  by eapply Forall_forall in Hx.
Qed.

(** The keys of the groups of values that come in the order of their
    keys go strictly upwards. *)
Lemma group_keys_sorted (l : list V) :
  StronglySorted (λ a b, JS.le (key a) (key b) = true) l →
  StronglySorted (λ k k', JS.lt k k' = true) (map fst (d3.group l key)).
Proof.
  unfold d3.group. induction l as [|v l IH] using rev_ind; intros Hsorted.
  - constructor.
  - rewrite fold_left_app. simpl. rewrite push_group_keys.
    apply StronglySorted_app in Hsorted as (Hle & Hl & _).
    specialize (IH Hl). case_decide as Hin; [done|].
    apply StronglySorted_app_2; [|done|repeat constructor].
    intros k k' Hk Hk'. apply list_elem_of_singleton in Hk' as ->.
    apply le_lt; [|by intros ->].
    apply elem_of_group_keys in Hk as (v' & Hv' & <-).
    apply Hle; [done | by left].
Qed.

End InOrder.

Section EntriesInOrder.

Implicit Types (data : list sample) (gs : groups) (bands : list band)
  (g : nat) (d : sample).

Lemma entries_forward data gs bands g :
  by_year data → forward_in_time (Global.entries_of data gs bands g).
Proof.
  intros Hsorted. unfold forward_in_time, Global.entries_of.
  change (map ?f ?l) with (f <$> l).
  assert (Hkeys : StronglySorted (λ k k', JS.lt k k' = true)
                    (map fst (Global.buckets_of data gs bands g))).
  { unfold Global.buckets_of. apply group_keys_sorted.
    rewrite filtered_of_spec. by apply StronglySorted_filter_list. }
  revert Hkeys. generalize (Global.buckets_of data gs bands g).
  induction l as [|[y ms] l IH]; intros Hkeys; [constructor|].
  simpl in *. apply StronglySorted_inv in Hkeys as [Hl Hy].
  constructor; [by apply IH|].
  apply Forall_forall. intros p ([y' ms'] & -> & Hin)%list_elem_of_fmap.
  simpl. rewrite Forall_forall in Hy. apply Hy.
  apply list_elem_of_fmap. by exists (y', ms').
Qed.

End EntriesInOrder.

Section MeanBounds.

Local Open Scope Qc_scope.





End MeanBounds.

(** ** The first variant *)

Section FixedBands.

Implicit Types (data : list sample) (d : sample) (q : Qc).

Lemma le_of_Z q (c : Z) :
  JS.le (Num q) (of_Z c) = true ↔ (q <= inject_Z c)%Q.
Proof.
  unfold JS.le, of_Z.
  transitivity (q <= Q2Qc (inject_Z c))%Qc.
  - rewrite (Qcle_alt q (Q2Qc (inject_Z c))).
    destruct (q ?= Q2Qc (inject_Z c))%Qc; split; done.
  - unfold Qcle. simpl. by rewrite Qred_correct.
Qed.

Lemma fixed_in_band_of_Z d q (n : string) (lo hi : Z) :
  lat d = Num q →
  Fixed.in_band d (Fixed.NamedBand n (of_Z lo) (of_Z hi)) = true
  ↔ (inject_Z lo <= q)%Q ∧ (q <= inject_Z hi)%Q.
Proof.
  intros Hlat. unfold Fixed.in_band. simpl. rewrite Hlat.
  by rewrite andb_true_iff, ge_of_Z, le_of_Z.
Qed.

(** The series of a band of the first variant. *)
Lemma fixed_series data (b : Fixed.named_band) :
  let nested :=
    d3.rollups (List.filter (λ d, Fixed.in_band d b) data)
      (λ v, d3.mean v tas) year in
  NoDup (map fst nested)
  ∧ (∀ y, y ∈ map fst nested
          ↔ ∃ d, d ∈ data ∧ Fixed.in_band d b = true ∧ year d = y)
  ∧ (∀ y t, (y, t) ∈ nested →
            t = mean_of_numeric (map tas (fixed_matching data b y))).
Proof.
  cbv zeta. unfold d3.rollups. rewrite callback_filter, map_map. simpl.
  split; [apply group_keys_NoDup|]. split.
  - intros y. rewrite elem_of_group_keys.
    setoid_rewrite list_elem_of_filter. naive_solver.
  - intros y t ([y' ms] & [= -> ->] & Hin)%list_elem_of_fmap. simpl.
    apply elem_of_group in Hin as [-> _].
    rewrite mean_spec. do 2 f_equal. unfold fixed_matching.
    rewrite list_filter_filter. apply list_filter_iff. naive_solver.
Qed.

End FixedBands.

(** ** The chart along a session *)

Section ChartInSync.

Implicit Types (data : list sample) (p : page).

Lemma global_update_in_sync data p :
  chart_in_sync data (Global.updateChartFromGroups (Some data) p).
Proof. reflexivity. Qed.

Lemma strips_update_in_sync data p :
  chart_in_sync data (Strips.updateChartFromGroups (Some data) p).
Proof. reflexivity. Qed.

Lemma annotated_update_in_sync data p :
  annotated_chart_in_sync data (Annotated.updateChartFromGroups (Some data) p).
Proof. reflexivity. Qed.

Lemma global_session_chart data clicks p :
  chart_in_sync data p →
  chart_in_sync data (Global.session (Some data) clicks p).
Proof.
  unfold Global.session. revert p.
  induction clicks as [|d clicks IH]; intros p Hp; [done|].
  simpl. apply IH. apply global_update_in_sync.
Qed.

Lemma strips_session_chart data clicks p :
  chart_in_sync data p →
  chart_in_sync data (Strips.session (Some data) clicks p).
Proof.
  unfold Strips.session. revert p.
  induction clicks as [|d clicks IH]; intros p Hp; [done|].
  simpl. apply IH. apply strips_update_in_sync.
Qed.

Lemma annotated_session_chart data events p :
  annotated_chart_in_sync data p →
  annotated_chart_in_sync data (Annotated.session (Some data) events p).
Proof.
  unfold Annotated.session. revert p.
  induction events as [|e events IH]; intros p Hp; [done|].
  simpl. apply IH. destruct e; apply annotated_update_in_sync.
Qed.

Lemma preset_non_empty : non_empty_groups preset = group_ids.
Proof. by vm_compute. Qed.

End ChartInSync.

(** ** The scales *)

Section Scales.

Local Open Scope Qc_scope.

Lemma lt_Num (a b : Qc) : JS.lt (Num a) (Num b) = true ↔ a < b.
Proof.
  unfold JS.lt. rewrite (Qclt_alt a b).
  destruct (a ?= b); split; done.
Qed.

Lemma lt_Num_false (a b : Qc) : JS.lt (Num a) (Num b) = false ↔ b ≤ a.
Proof.
  rewrite <- not_true_iff_false, lt_Num. split.
  - apply Qcnot_lt_le.
  - intros Hle Hlt. by apply (Qcle_not_lt _ _ Hle).
Qed.

Lemma div_le (a b z : Qc) : 0 < z → a ≤ b → a / z ≤ b / z.
Proof.
  intros Hz Hab. assert (z ≠ 0) by (intros Heq; rewrite Heq in Hz; by apply Qclt_not_eq in Hz).
  apply (Qcmult_lt_0_le_reg_r _ _ z Hz). by rewrite !test_field.
Qed.


Lemma minus_le (a b c : Qc) : a ≤ b → a - c ≤ b - c.
Proof. intros Hab. unfold Qcminus. by apply Qcplus_le_mono_r. Qed.


Lemma minus_pos (a b : Qc) : a < b → 0 < b - a.
Proof. intros Hab. unfold Qcminus. by apply (proj1 (Qclt_minus_iff a b)). Qed.


Lemma minus_self (a : Qc) : a - a = 0.
Proof. ring. Qed.

Lemma of_Z_nonneg (z : Z) : (0 ≤ z)%Z → 0 ≤ Q2Qc (inject_Z z).
Proof.
  intros Hz. unfold Qcle. cbn [this Q2Qc]. rewrite !Qred_correct.
  unfold Qle. simpl. lia.
Qed.

(** *** [d3.extent] *)

Context {V : Type} (valueof : V → number).

Lemma numeric_snoc (values : list V) (v : V) :
  numeric (map valueof (values ++ [v]))
  = numeric (map valueof values)
    ++ match valueof v with Num q => [q] | NaN => [] end.
Proof.
  unfold numeric. rewrite map_app, omap_app. simpl.
  by destruct (valueof v).
Qed.

Lemma extent_step_of (values : list V) (acc : option (Qc * Qc)) (v : V) :
  extent_of valueof values acc →
  extent_of valueof (values ++ [v]) (d3_scale.extent_step valueof acc v).
Proof.
  unfold extent_of, d3_scale.extent_step. rewrite numeric_snoc.
  destruct (valueof v) as [q|]; [|by rewrite app_nil_r].
  destruct acc as [[mn mx]|].
  - intros (Hmn & Hmx & Hall). split; [|split].
    + destruct (JS.lt (Num q) (Num mn)); set_solver.
    + destruct (JS.lt (Num mx) (Num q)); set_solver.
    + intros q' Hq'.
      assert (Hq : (mn ≤ q' ∧ q' ≤ mx) ∨ q' = q).
      { apply elem_of_app in Hq' as [Hq'|Hq']; [left; by apply Hall|].
        right. by apply list_elem_of_singleton in Hq'. }
      destruct (JS.lt (Num q) (Num mn)) eqn:Hlo;
        [apply lt_Num in Hlo | apply lt_Num_false in Hlo];
        (destruct (JS.lt (Num mx) (Num q)) eqn:Hhi;
         [apply lt_Num in Hhi | apply lt_Num_false in Hhi]);
        destruct Hq as [[Hq1 Hq2]| ->]; split;
        solve [ apply Qcle_refl
              | assumption
              | apply Qclt_le_weak; assumption
              | eapply Qcle_trans;
                [apply Qclt_le_weak; eassumption | eassumption]
              | eapply Qcle_trans;
                [eassumption | apply Qclt_le_weak; eassumption] ].
  - intros ->. simpl. split; [by left|]. split; [by left|].
    intros q' Hq'. apply list_elem_of_singleton in Hq' as ->.
    split; apply Qcle_refl.
Qed.

(** [d3.extent] returns the least and the greatest of the values that
    are numbers, and [undefined] ends when none is. *)
Lemma extent_spec (values : list V) :
  extent_of valueof values (d3_scale.extent values valueof).
Proof.
  unfold d3_scale.extent. induction values as [|v values IH] using rev_ind.
  - done.
  - rewrite fold_left_app. simpl. by apply extent_step_of.
Qed.

End Scales.

Section ChartScale.

Local Open Scope Qc_scope.

Implicit Types (groupedData : list series) (p : point).


Lemma half_unit : 0 ≤ 1 / of_nat 2 ∧ 1 / of_nat 2 ≤ 1.
Proof. split; by vm_compute. Qed.

Lemma unit_interval (a z : Qc) :
  0 < z → 0 ≤ a → a ≤ z → 0 ≤ a / z ∧ a / z ≤ 1.
Proof.
  intros Hz H0 H1.
  assert (z ≠ 0) by (intros Heq; rewrite Heq in Hz; by apply Qclt_not_eq in Hz).
  split; apply (Qcmult_lt_0_le_reg_r _ _ z Hz); rewrite test_field by done.
  - by rewrite Qcmult_0_l.
  - by rewrite Qcmult_1_l.
Qed.

Lemma interpolate_unit (w t : Qc) :
  0 ≤ w → 0 ≤ t → t ≤ 1 →
  0 ≤ 0 * (1 - t) + w * t ∧ 0 * (1 - t) + w * t ≤ w.
Proof.
  intros Hw H0 H1.
  replace (0 * (1 - t) + w * t) with (w * t) by ring. split.
  - by apply Qcmult_nonneg_nonneg.
  - rewrite <- (Qcmult_1_r w) at 2. by apply Qcmult_le_mono_nonneg_l.
Qed.

Lemma interpolate_mono (w t t' : Qc) :
  0 ≤ w → t ≤ t' → 0 * (1 - t) + w * t ≤ 0 * (1 - t') + w * t'.
Proof.
  intros Hw Ht.
  replace (0 * (1 - t) + w * t) with (w * t) by ring.
  replace (0 * (1 - t') + w * t') with (w * t') by ring.
  by apply Qcmult_le_mono_nonneg_l.
Qed.

(** The scale on a domain [[min, max]] with [min <= max]. *)
Lemma linear_on_extent (mn mx r0 r1 x : Qc) :
  mn ≤ mx →
  d3_scale.linear (Num mn, Num mx) (Num r0, Num r1) (Num x)
  = Some (Num (if decide (mx - mn = 0)
               then r0 * (1 - 1 / of_nat 2) + r1 * (1 / of_nat 2)
               else r0 * (1 - (x - mn) / (mx - mn)) + r1 * ((x - mn) / (mx - mn)))).
Proof.
  intros Hle. unfold d3_scale.linear.
  rewrite (proj2 (lt_Num_false mx mn) Hle). by case_decide.
Qed.

Lemma extent_ordered {V} (valueof : V → number) (values : list V) (mn mx : Qc) :
  d3_scale.extent values valueof = Some (mn, mx) → mn ≤ mx.
Proof.
  intros Hext. pose proof (extent_spec valueof values) as Hspec.
  rewrite Hext in Hspec. destruct Hspec as (Hmn & _ & Hall).
  by apply Hall.
Qed.

Lemma chart_x_NaN (width : Z) groupedData :
  chart_x width groupedData NaN = None.
Proof. reflexivity. Qed.

Lemma chart_x_within (width : Z) groupedData p (y : Qc) :
  (0 ≤ width)%Z → p ∈ allValues groupedData → point_year p = Num y →
  ∃ px, chart_x width groupedData (Num y) = Some (Num px)
        ∧ 0 ≤ px ∧ px ≤ Q2Qc (inject_Z width).
Proof.
  intros Hw Hp Hy. unfold chart_x.
  pose proof (extent_spec point_year (allValues groupedData)) as Hspec.
  assert (Hin : y ∈ numeric (map point_year (allValues groupedData))).
  { apply list_elem_of_omap. exists (Num y). split; [|done].
    apply list_elem_of_fmap. by exists p. }
  destruct (d3_scale.extent _ _) as [[mn mx]|] eqn:Hext; simpl in Hspec;
    [|rewrite Hspec in Hin; by apply elem_of_nil in Hin].
  destruct Hspec as (_ & _ & Hall). destruct (Hall y Hin) as [Hlo Hhi].
  assert (Hle : mn ≤ mx) by by eapply Qcle_trans.
  unfold d3_scale.domain_of, of_Z. rewrite linear_on_extent by done.
  change (Q2Qc (inject_Z 0)) with 0%Qc.
  pose proof (of_Z_nonneg width Hw) as Hwq.
  eexists. split; [reflexivity|]. case_decide as Hz.
  - apply interpolate_unit; [done|apply half_unit..].
  - apply interpolate_unit; [done|..];
      apply unit_interval.
    + destruct (Qcle_lt_or_eq _ _ Hle) as [Hlt| ->];
        [by apply minus_pos | by rewrite minus_self in Hz].
    + rewrite <- (minus_self mn). by apply minus_le.
    + by apply minus_le.
    + destruct (Qcle_lt_or_eq _ _ Hle) as [Hlt| ->];
        [by apply minus_pos | by rewrite minus_self in Hz].
    + rewrite <- (minus_self mn). by apply minus_le.
    + by apply minus_le.
Qed.

Lemma chart_x_mono (width : Z) groupedData (y y' px px' : Qc) :
  (0 ≤ width)%Z → y ≤ y' →
  chart_x width groupedData (Num y) = Some (Num px) →
  chart_x width groupedData (Num y') = Some (Num px') →
  px ≤ px'.
Proof.
  intros Hw Hyy. unfold chart_x.
  destruct (d3_scale.extent _ _) as [[mn mx]|] eqn:Hext; [|done].
  pose proof (extent_ordered _ _ _ _ Hext) as Hle.
  unfold d3_scale.domain_of, of_Z. rewrite !linear_on_extent by done.
  change (Q2Qc (inject_Z 0)) with 0%Qc.
  pose proof (of_Z_nonneg width Hw) as Hwq.
  case_decide as Hz; intros [= <-] [= <-]; [apply Qcle_refl|].
  apply interpolate_mono; [done|]. apply div_le; [|by apply minus_le].
  destruct (Qcle_lt_or_eq _ _ Hle) as [Hlt| ->];
    [by apply minus_pos | by rewrite minus_self in Hz].
Qed.

(** *** The strips of the map *)



End ChartScale.

(** ** More properties of the grouping state *)

(** X1. Clicks on two different bands commute: the grouping after the two
    calls of [handleBandClick] does not depend on their order. *)
Theorem X1_clicks_on_different_bands_commute (ug : groups) (b b' : Z) :
  b ≠ b' →
  Global.handleBandClick b (Global.handleBandClick b' ug)
  = Global.handleBandClick b' (Global.handleBandClick b ug).
Proof.
  intros Hne. apply memberships_eq. intros x.
  destruct (decide (x = b)) as [->|Hb].
  - rewrite memberships_click_same.
    rewrite !(memberships_click_other _ b' b) by done.
    by rewrite memberships_click_same.
  - rewrite (memberships_click_other _ b x) by done.
    destruct (decide (x = b')) as [->|Hb'].
    + rewrite !memberships_click_same.
      by rewrite (memberships_click_other _ b b') by done.
    + rewrite !(memberships_click_other _ b' x) by done.
      by rewrite (memberships_click_other _ b x) by done.
Qed.

Lemma X1_clicks_on_different_bands_commute_witness :
  (3 : Z) ≠ 5
  ∧ Global.handleBandClick 3 (Global.handleBandClick 5 preset)
    = Global.handleBandClick 5 (Global.handleBandClick 3 preset).
Proof.
  assert (Hne : (3 : Z) ≠ 5) by lia.
  split; [exact Hne|].
  exact (X1_clicks_on_different_bands_commute preset 3 5 Hne).
Defined.

(** X2. From a reachable grouping, [k] clicks on one band give back the
    grouping they started from exactly when [k] is a multiple of four. *)
Theorem X2_clicks_restore_iff_multiple_of_four (ug : groups) (b : Z) (k : nat) :
  reachable ug →
  Nat.iter k (Global.handleBandClick b) ug = ug ↔ (k mod 4 = 0)%nat.
Proof.
  intros Hreach. apply reachable_inv in Hreach as [Hdis _].
  by apply click_period.
Qed.

Lemma X2_clicks_restore_iff_multiple_of_four_witness :
  let ug := userGroups (Global.session None [strip0; strip3; strip0]
                          (Global.start None)) in
  reachable ug
  ∧ (Nat.iter 6 (Global.handleBandClick 3) ug = ug ↔ (6 mod 4 = 0)%nat).
Proof.
  intros ug.
  assert (Hreach : reachable ug).
  { apply reachable_global.
    repeat constructor; apply (bool_decide_unpack _); by vm_compute. }
  split; [exact Hreach|].
  exact (X2_clicks_restore_iff_multiple_of_four ug 3 6 Hreach).
Defined.

(** X3. The groupings a session can reach are exactly those in which no
    band id is in two groups and every band id is the id of a strip of
    the map: each of them is reached from the empty grouping by clicks. *)
Theorem X3_reachable_iff_disjoint_within_map (ug : groups) :
  reachable ug ↔ one_group_per_band ug ∧ within_map ug.
Proof.
  rewrite one_group_per_band_disjoint. split; [apply reachable_inv|].
  intros [Hdis Hin]. rewrite <- (clicks_for_reach None ug Hdis Hin).
  apply reachable_global, clicks_for_on_map.
Qed.


(** X5. After a failed load ([tasData] is [undefined]) the chart stays
    blank through every session on each of the three pages: the update
    draws no line while every group is empty and throws before drawing
    once a group is not. *)
Theorem X5_failed_load_leaves_the_chart_blank
    (events : list Annotated.event) (clicks : list band) :
  linechart (Global.session None clicks (Global.start None)) = blank_chart
  ∧ linechart (Annotated.session None events (Annotated.start None)) = blank_chart
  ∧ linechart (Strips.session None clicks (Strips.start None)) = blank_chart.
Proof.
  split; [|split].
  - apply global_session_blank. unfold Global.start.
    by apply global_update_blank.
  - apply annotated_session_blank. unfold Annotated.start.
    by apply annotated_update_blank.
  - apply strips_session_blank. unfold Strips.start.
    by apply strips_update_blank.
Qed.

(** X6. With the data loaded, once the top level has run and after every
    listener, the chart shows the averages of the current grouping, and on
    the annotated page the two callouts exactly when that grouping passes
    [groupsMatchDefaultPattern]. *)
Theorem X6_chart_shows_the_averages
    (data : list sample)
    (events : list Annotated.event) (clicks : list band) :
  chart_in_sync data (Global.session (Some data) clicks (Global.start (Some data)))
  ∧ annotated_chart_in_sync data
      (Annotated.session (Some data) events (Annotated.start (Some data)))
  ∧ chart_in_sync data (Strips.session (Some data) clicks (Strips.start (Some data))).
Proof.
  split; [|split].
  - apply global_session_chart, global_update_in_sync.
  - apply annotated_session_chart, annotated_update_in_sync.
  - apply strips_session_chart, strips_update_in_sync.
Qed.

(** X7. From a grouping that matches the poles/mid-lats/tropics pattern,
    a click on any band gives a grouping that does not match it, so that
    on the annotated page with the data loaded the callouts are gone after
    the click. *)
Theorem X7_click_breaks_the_pattern
    (data : list sample) (d : band) (p : page) :
  default_pattern (userGroups p) →
  ¬ default_pattern (Global.handleBandClick (band_id d) (userGroups p))
  ∧ annotations (linechart (Annotated.on_click (Some data) d p)) = [].
Proof.
  intros Hpat.
  pose proof (click_breaks_pattern _ (band_id d) Hpat) as Hnot.
  split; [done|].
  unfold Annotated.on_click. rewrite annotated_update_annotations. simpl.
  destruct (Annotated.truthy _) eqn:Htruthy; [|done].
  apply match_default_pattern in Htruthy. done.
Qed.

Lemma X7_click_breaks_the_pattern_witness :
  let p := Annotated.start (Some data_numeric) in
  default_pattern (userGroups p)
  ∧ annotations (linechart (Annotated.on_click (Some data_numeric) strip3 p)) = [].
Proof.
  intros p.
  assert (Hpat : default_pattern (userGroups p)).
  { apply match_default_pattern. by vm_compute. }
  split; [exact Hpat|].
  exact (proj2 (X7_click_breaks_the_pattern data_numeric strip3 p Hpat)).
Defined.

(** X8. The first page after the load. On the page of global.js the
    chart is blank and no band is assigned, whether the load succeeded or
    not. On the annotated page a successful load gives the three lines of
    the preset with the two callouts, and a failed load a blank chart. *)
Theorem X8_first_page_after_the_load
    (StringToNumber : string → number) (w : d3.world) :
  let global := fst (boot StringToNumber Global.start w) in
  let annotated := fst (boot StringToNumber Annotated.start w) in
  linechart global = blank_chart
  ∧ userGroups global = Groups ∅ ∅ ∅
  ∧ userGroups annotated = Groups {[0; 5]} {[1; 4]} {[2; 3]}
  ∧ match settles_to w with
    | Resolved rows =>
        linechart annotated
        = {| lines :=
               Global.computeGroupAverages (map (row_to_sample StringToNumber) rows)
                 preset Global.latitudeBands;
             annotations := [Annotated.top_annotation; Annotated.bottom_annotation] |}
        ∧ map name (lines (linechart annotated))
          = ["Group 1"; "Group 2"; "Group 3"]%string
    | Rejected _ => linechart annotated = blank_chart
    end.
Proof.
  unfold boot, loadTASData, settles_to, mbind, mret, d3.IO_bind, d3.IO_ret, d3.csv.
  destruct (d3.pending w) as [|[rows|error] rest]; simpl; repeat split.
Qed.

(** ** More properties of the averager *)

(** X9. Which series are there, and which are empty: the result has no
    series exactly when every group is empty; the series of a non-empty
    group has no entry exactly when no sample falls in a band of the
    group, so that no data gives one series without entries per non-empty
    group. *)
Theorem X9_series_empty_iff_no_sample_matches
    (data : list sample) (gs : groups) (bands : list band) :
  (Global.computeGroupAverages data gs bands = []
   ↔ ∀ g, g ∈ group_ids → group_at gs g = ∅)
  ∧ (∀ s, s ∈ Global.computeGroupAverages data gs bands
          ↔ ∃ g, g ∈ group_ids ∧ group_at gs g ≠ ∅
                 ∧ s = {| name := group_name g;
                          values := Global.entries_of data gs bands g |})
  ∧ (∀ g, Global.entries_of data gs bands g = []
          ↔ ∀ d, d ∈ data → in_owned_band gs bands g d = false)
  ∧ Global.computeGroupAverages [] gs bands
    = map (λ g, {| name := group_name g; values := [] |}) (non_empty_groups gs).
Proof.
  split; [apply averages_nil|]. split; [apply elem_of_averages|].
  split; [intros g; apply entries_nil|].
  rewrite averages_spec. apply map_ext. intros g. reflexivity.
Qed.

(** X10. A sample that passes the test of no band (its latitude is not a
    number, or is 90, or lies outside the span of the bands) can be taken
    out of the data, wherever it stands, without changing the result. *)
Theorem X10_samples_outside_every_band_are_ignored
    (data1 data2 : list sample) (d : sample) (gs : groups) :
  lat d = NaN ∨ lat d = of_Z 90
  ∨ (∀ b, b ∈ Global.latitudeBands → Global.in_band d b = false) →
  Global.computeGroupAverages (data1 ++ d :: data2) gs Global.latitudeBands
  = Global.computeGroupAverages (data1 ++ data2) gs Global.latitudeBands.
Proof.
  intros Hout. apply averages_without. intros b Hb.
  destruct Hout as [Hnan|[Hpole|Hout]]; [by apply in_band_NaN| |by apply Hout].
  unfold Global.latitudeBands in Hb. unfold Global.in_band. rewrite Hpole.
  repeat (apply elem_of_cons in Hb as [->|Hb]);
    try (by apply elem_of_nil in Hb); by vm_compute.
Qed.

Lemma X10_samples_outside_every_band_are_ignored_witness :
  lat no_latitude = NaN
  ∧ Global.computeGroupAverages (data_numeric ++ no_latitude :: data_with_NaN)
      preset Global.latitudeBands
    = Global.computeGroupAverages (data_numeric ++ data_with_NaN)
        preset Global.latitudeBands.
Proof.
  split; [reflexivity|].
  apply (X10_samples_outside_every_band_are_ignored
           data_numeric data_with_NaN no_latitude preset).
  left. reflexivity.
Defined.

(** X11. The per-year buckets of a group hold the samples that fall in a
    band of the group, each of them once: no sample is lost or counted
    twice by the rollup. *)
Theorem X11_buckets_partition_the_matching_samples
    (data : list sample) (gs : groups) (bands : list band) (g : nat) :
  concat (map snd (Global.buckets_of data gs bands g))
  ≡ₚ filter (λ d, in_owned_band gs bands g d = true) data.
Proof.
  unfold Global.buckets_of. by rewrite group_concat, filtered_of_spec.
Qed.

(** X12. With the bands of the map and no band id in two groups, no
    sample counts for two groups. *)
Theorem X12_no_sample_in_two_groups
    (gs : groups) (d : sample) (g g' : nat) :
  one_group_per_band gs → g ∈ group_ids → g' ∈ group_ids →
  in_owned_band gs Global.latitudeBands g d = true →
  in_owned_band gs Global.latitudeBands g' d = true →
  g = g'.
Proof.
  intros Hone Hg Hg' (b & Hb & Hid & Hin)%in_owned_band_spec
    (b' & Hb' & Hid' & Hin')%in_owned_band_spec.
  assert (b = b') as <- by by eapply at_most_one_band.
  by eapply Hone.
Qed.

Lemma X12_no_sample_in_two_groups_witness :
  let d := sample_of 2000 10 (of_Z 1) in
  one_group_per_band preset ∧ 3%nat ∈ group_ids
  ∧ in_owned_band preset Global.latitudeBands 3 d = true
  ∧ 3%nat = 3%nat.
Proof.
  intros d.
  assert (Hone : one_group_per_band preset).
  { apply one_group_per_band_disjoint.
    repeat split; apply (bool_decide_unpack _); by vm_compute. }
  assert (Hg : 3%nat ∈ group_ids) by (apply (bool_decide_unpack _); by vm_compute).
  assert (Hin : in_owned_band preset Global.latitudeBands 3 d = true)
    by by vm_compute.
  split; [exact Hone|]. split; [exact Hg|]. split; [exact Hin|].
  exact (X12_no_sample_in_two_groups preset d 3 3 Hone Hg Hg Hin Hin).
Defined.

(** X13. When every strip of the map is in a group, a sample whose
    latitude is at least -90 and below 90 counts for some group. *)
Theorem X13_every_sample_below_90_counts
    (gs : groups) (d : sample) (q : Qc) :
  all_assigned gs →
  lat d = Num q → (inject_Z (-90) <= q)%Q → (q < inject_Z 90)%Q →
  ∃ g, g ∈ group_ids ∧ in_owned_band gs Global.latitudeBands g d = true.
Proof.
  intros Hall Hlat Hlo Hhi.
  destruct (one_band_below_90 d q Hlat Hlo Hhi) as (b & Hb & Hin & _).
  destruct (Hall (band_id b)) as (g & Hg & Hid).
  { unfold band_ids. apply elem_of_list_to_set, list_elem_of_fmap. eauto. }
  exists g. split; [done|]. apply in_owned_band_spec. eauto.
Qed.

Lemma X13_every_sample_below_90_counts_witness :
  let d := sample_of 2000 10 (of_Z 1) in
  all_assigned preset
  ∧ ∃ g, g ∈ group_ids ∧ in_owned_band preset Global.latitudeBands g d = true.
Proof.
  intros d.
  assert (Hall : all_assigned preset).
  { intros i Hi. unfold band_ids in Hi.
    apply elem_of_list_to_set in Hi. simpl in Hi.
    repeat (apply elem_of_cons in Hi as [->|Hi]);
      try (by apply elem_of_nil in Hi).
    - exists 1%nat. split; apply (bool_decide_unpack _); by vm_compute.
    - exists 2%nat. split; apply (bool_decide_unpack _); by vm_compute.
    - exists 3%nat. split; apply (bool_decide_unpack _); by vm_compute.
    - exists 3%nat. split; apply (bool_decide_unpack _); by vm_compute.
    - exists 2%nat. split; apply (bool_decide_unpack _); by vm_compute.
    - exists 1%nat. split; apply (bool_decide_unpack _); by vm_compute. }
  split; [exact Hall|].
  apply (X13_every_sample_below_90_counts preset d (Q2Qc (inject_Z 10)) Hall).
  - reflexivity.
  - by vm_compute.
  - by vm_compute.
Defined.

(** X14. When the rows come in the order of their years, the entries of
    each series go strictly forward in time. *)
Theorem X14_rows_in_year_order_give_lines_forward_in_time
    (data : list sample) (gs : groups) (bands : list band) (s : series) :
  by_year data →
  s ∈ Global.computeGroupAverages data gs bands →
  forward_in_time (values s).
Proof.
  intros Hsorted (g & _ & _ & ->)%elem_of_averages. by apply entries_forward.
Qed.

Lemma X14_rows_in_year_order_give_lines_forward_in_time_witness :
  let s := {| name := group_name 3;
              values := Global.entries_of data_numeric preset Global.latitudeBands 3 |} in
  by_year data_numeric
  ∧ s ∈ Global.computeGroupAverages data_numeric preset Global.latitudeBands
  ∧ forward_in_time (values s).
Proof.
  intros s.
  assert (Hsorted : by_year data_numeric).
  { unfold by_year, data_numeric. repeat constructor. }
  assert (Hs : s ∈ Global.computeGroupAverages data_numeric preset Global.latitudeBands).
  { rewrite averages_spec, preset_non_empty. simpl. right. right. left. }
  split; [exact Hsorted|]. split; [exact Hs|].
  exact (X14_rows_in_year_order_give_lines_forward_in_time
           data_numeric preset Global.latitudeBands s Hsorted Hs).
Defined.



(** ** The bands and the series of the first variant *)

(** X16. The bands of the first variant are closed at both ends: a
    latitude falls in one of them exactly when it lies between -30 and 90,
    both included, and in two of them exactly when it is 30 or 60, so the
    samples at 30 and at 60 degrees north count for two lines. *)
Theorem X16_first_variant_bands_share_their_ends (d : sample) (q : Qc) :
  lat d = Num q →
  ((∃ b, b ∈ Fixed.bands ∧ Fixed.in_band d b = true)
   ↔ (inject_Z (-30) <= q)%Q ∧ (q <= inject_Z 90)%Q)
  ∧ ((∃ b b', b ∈ Fixed.bands ∧ b' ∈ Fixed.bands ∧ b ≠ b'
              ∧ Fixed.in_band d b = true ∧ Fixed.in_band d b' = true)
     ↔ (q == inject_Z 30)%Q ∨ (q == inject_Z 60)%Q).
Proof.
  intros Hlat. unfold Fixed.bands. split; split.
  - intros (b & Hb & Hin).
    repeat (apply elem_of_cons in Hb as [->|Hb]);
      try (by apply elem_of_nil in Hb);
      apply (fixed_in_band_of_Z d q) in Hin as [Hlo Hhi]; try done;
      unfold inject_Z in *; split; lra.
  - intros [Hlo Hhi].
    destruct (Qlt_le_dec q (inject_Z 30)) as [H30|H30];
      [|destruct (Qlt_le_dec q (inject_Z 60)) as [H60|H60]].
    + exists (Fixed.NamedBand "Tropics (-30°–30°)" (of_Z (-30)) (of_Z 30)).
      split; [set_solver|]. apply (fixed_in_band_of_Z d q); [done|].
      split; [done|]. by apply Qlt_le_weak.
    + exists (Fixed.NamedBand "Mid-latitudes (30°–60°N)" (of_Z 30) (of_Z 60)).
      split; [set_solver|]. apply (fixed_in_band_of_Z d q); [done|].
      split; [done|]. by apply Qlt_le_weak.
    + exists (Fixed.NamedBand "Arctic (60°–90°N)" (of_Z 60) (of_Z 90)).
      split; [set_solver|]. by apply (fixed_in_band_of_Z d q).
  - intros (b & b' & Hb & Hb' & Hne & Hin & Hin').
    repeat (apply elem_of_cons in Hb as [->|Hb]);
      try (by apply elem_of_nil in Hb);
      apply (fixed_in_band_of_Z d q) in Hin as [Hlo Hhi]; try done;
      repeat (apply elem_of_cons in Hb' as [->|Hb']);
      try (by apply elem_of_nil in Hb');
      try done;
      apply (fixed_in_band_of_Z d q) in Hin' as [Hlo' Hhi']; try done;
      unfold inject_Z in *;
      first [ left; apply Qle_antisym; lra
            | right; apply Qle_antisym; lra
            | exfalso; lra ].
  - intros [Heq|Heq].
    + exists (Fixed.NamedBand "Tropics (-30°–30°)" (of_Z (-30)) (of_Z 30)),
        (Fixed.NamedBand "Mid-latitudes (30°–60°N)" (of_Z 30) (of_Z 60)).
      split; [set_solver|]. split; [set_solver|]. split; [done|].
      split; apply (fixed_in_band_of_Z d q); try done;
        unfold inject_Z in *; split; lra.
    + exists (Fixed.NamedBand "Mid-latitudes (30°–60°N)" (of_Z 30) (of_Z 60)),
        (Fixed.NamedBand "Arctic (60°–90°N)" (of_Z 60) (of_Z 90)).
      split; [set_solver|]. split; [set_solver|]. split; [done|].
      split; apply (fixed_in_band_of_Z d q); try done;
        unfold inject_Z in *; split; lra.
Qed.

Lemma X16_first_variant_bands_share_their_ends_witness :
  let d := sample_of 2000 30 (of_Z 1) in
  lat d = Num (Q2Qc (inject_Z 30))
  ∧ ∃ b b', b ∈ Fixed.bands ∧ b' ∈ Fixed.bands ∧ b ≠ b'
            ∧ Fixed.in_band d b = true ∧ Fixed.in_band d b' = true.
Proof.
  intros d.
  assert (Hlat : lat d = Num (Q2Qc (inject_Z 30))) by reflexivity.
  split; [exact Hlat|].
  apply (X16_first_variant_bands_share_their_ends d _ Hlat).
  left. by vm_compute.
Defined.

(** X17. The series of the first variant: one per band, in the order of
    the bands and under the band's name, also when no sample falls in the
    band; in each, one entry per distinct year in which a sample falls in
    the band, with the mean of the [tas] values that are numbers among
    the samples of the band and the year. *)
Theorem X17_first_variant_series (data : list sample) :
  Fixed.bandData data
  = map (λ b, {| name := Fixed.nb_name b; values := fixed_entries data b |})
      Fixed.bands
  ∧ ∀ b,
      NoDup (map point_year (fixed_entries data b))
      ∧ (∀ y, y ∈ map point_year (fixed_entries data b)
              ↔ ∃ d, d ∈ data ∧ Fixed.in_band d b = true ∧ year d = y)
      ∧ (∀ p, p ∈ fixed_entries data b →
              point_tas p
              = mean_of_numeric (map tas (fixed_matching data b (point_year p)))).
Proof.
  split; [reflexivity|]. intros b.
  destruct (fixed_series data b) as (Hnodup & Hyears & Htas).
  unfold fixed_entries. rewrite map_map. simpl.
  split; [done|]. split; [done|].
  intros p ([y t] & -> & Hin)%list_elem_of_fmap. simpl. by apply Htas.
Qed.

(** ** Where the chart and the map put things *)

(** X18. On a chart [width] wide, the horizontal position of every entry
    whose year is a number lies between 0 and [width], and positions go
    with the years: a later year is never to the left of an earlier one. *)
Theorem X18_points_lie_within_the_chart_width
    (width : Z) (groupedData : list series) :
  (0 ≤ width)%Z →
  (∀ p y, p ∈ allValues groupedData → point_year p = Num y →
          ∃ px, chart_x width groupedData (Num y) = Some (Num px)
                ∧ (0 ≤ px ∧ px ≤ Q2Qc (inject_Z width))%Qc)
  ∧ (∀ y y' px px', (y ≤ y')%Qc →
        chart_x width groupedData (Num y) = Some (Num px) →
        chart_x width groupedData (Num y') = Some (Num px') →
        (px ≤ px')%Qc).
Proof.
  intros Hw. split.
  - intros p y. by apply chart_x_within.
  - intros y y' px px'. by apply chart_x_mono.
Qed.

Lemma X18_points_lie_within_the_chart_width_witness :
  let groupedData :=
    Global.computeGroupAverages data_numeric preset Global.latitudeBands in
  (0 ≤ 700)%Z
  ∧ ∀ p y, p ∈ allValues groupedData → point_year p = Num y →
           ∃ px, chart_x 700 groupedData (Num y) = Some (Num px)
                 ∧ (0 ≤ px ∧ px ≤ Q2Qc (inject_Z 700))%Qc.
Proof.
  intros groupedData.
  assert (Hw : (0 ≤ 700)%Z) by lia.
  split; [exact Hw|].
  exact (proj1 (X18_points_lie_within_the_chart_width 700 groupedData Hw)).
Defined.


